(** * Flight tracker: the map reconciler, the flight fetcher and the
      location resolver, embedded from the TypeScript sources.

    - [JS]: the fragment of JavaScript values the components compute with
      (numbers with NaN and the infinities, [parseFloat], [Math.round],
      [toFixed], [trim], [split]).
    - [FlightMap]: [src/FlightMap.tsx], the refs of the component, the
      Leaflet objects they hold and [updateMapFlights].
    - [Net]: the two services, by what a call can get back from them.
    - [Fetcher]: the response normalisation shared, line for line, by both
      tracker components, and the conversion of a flight for the map view.
    - [GlobalFlightTracker]: [src/FlightTracker.tsx] ([searchAirport] and
      [fetchFlights]).
    - [FlightTracker]: the tracker component over a fixed table of cities
      (its own [fetchFlights]).
    - [Handlers]: the event handlers of the two search forms.
    - [UserLocation]: the map view with the position of the user.
    - [Checked]: the pass of [updateMapFlights] with the check Leaflet
      makes of the positions it is handed.
    - [Reconciler], [Fetching], [Tracks], [Display], [Searching],
      [Overlay], [Passes], [Resolving]: the properties proved of them.

    Finite JavaScript numbers are modelled by exact rationals: sums,
    differences and products are the real ones, not their IEEE-754
    roundings.  Leaflet is modelled by what the component can observe of it:
    every Leaflet object carries the identifier Leaflet stamps it with, and
    a map is the set of identifiers of the layers currently added to it.
    [FlightMap] describes the calls to Leaflet as they go when Leaflet
    accepts its arguments; [Checked] adds the refusal of a NaN coordinate,
    the one check of Leaflet that the values of the component can fail. *)

From Stdlib Require Import QArith Qround Qabs ZArith String Ascii List Bool Lia DecimalString.
From Stdlib Require DecimalPos.
From stdpp Require Import gmap strings list fin_maps.

Local Open Scope string_scope.

Set Warnings "-clear-no-such-hyp".

(* ===================================================================== *)
(** ** JavaScript values *)
(* ===================================================================== *)

Module JS.

(** A JavaScript number: NaN, an infinity with its sign, or a finite
    value. *)
Inductive number : Type :=
| NaN : number
| Infinity (negative : bool) : number
| Finite (q : Q) : number.

Definition zero : number := Finite 0.

(** [a === b] and [a !== b] on numbers: NaN is different from every
    number, itself included. *)
Definition strict_eq (a b : number) : bool :=
  match a, b with
  | Finite p, Finite q => Qeq_bool p q
  | Infinity s, Infinity t => Bool.eqb s t
  | _, _ => false
  end.

Definition strict_neq (a b : number) : bool := negb (strict_eq a b).

(** ToBoolean on a number: [0] and [NaN] are falsy. *)
Definition truthy (a : number) : bool :=
  match a with
  | NaN => false
  | Infinity _ => true
  | Finite q => negb (Qeq_bool q 0)
  end.

(** ToBoolean on a string: only the empty string is falsy. *)
Definition truthy_string (s : string) : bool :=
  match s with
  | EmptyString => false
  | String _ _ => true
  end.

(** [a || b] on numbers and on strings. *)
Definition or_number (a b : number) : number := if truthy a then a else b.
Definition or_string (a b : string) : string := if truthy_string a then a else b.

Definition is_negative (q : Q) : bool :=
  match Qcompare q 0 with Lt => true | _ => false end.

Definition neg (a : number) : number :=
  match a with
  | NaN => NaN
  | Infinity s => Infinity (negb s)
  | Finite q => Finite (- q)
  end.

(** [a + b], [a - b] and [a * b], on the finite numbers without the
    rounding of the result to a double. *)
Definition add (a b : number) : number :=
  match a, b with
  | NaN, _ | _, NaN => NaN
  | Infinity s, Infinity t => if Bool.eqb s t then Infinity s else NaN
  | Infinity s, Finite _ => Infinity s
  | Finite _, Infinity t => Infinity t
  | Finite p, Finite q => Finite (p + q)
  end.

Definition sub (a b : number) : number := add a (neg b).

Definition mul (a b : number) : number :=
  match a, b with
  | NaN, _ | _, NaN => NaN
  | Infinity s, Infinity t => Infinity (xorb s t)
  | Infinity s, Finite q | Finite q, Infinity s =>
      if Qeq_bool q 0 then NaN else Infinity (xorb s (is_negative q))
  | Finite p, Finite q => Finite (p * q)
  end.

(** The result of [Math.round]: a number without fractional part. *)
Inductive integral : Type :=
| INaN : integral
| IInfinity (negative : bool) : integral
| IInt (z : Z) : integral.

(** [Math.round(x)]: the nearest integer, a tie going upwards. *)
Definition Math_round (a : number) : integral :=
  match a with
  | NaN => INaN
  | Infinity s => IInfinity s
  | Finite q => IInt (Qfloor (q + (1 # 2)))
  end.

Definition Z_to_string (z : Z) : string := NilZero.string_of_int (Z.to_int z).

(** [`${n}`] for an integral number: plain decimal digits (JavaScript
    prints so below 10^21 in magnitude). *)
Definition integral_to_string (n : integral) : string :=
  match n with
  | INaN => "NaN"
  | IInfinity false => "Infinity"
  | IInfinity true => "-Infinity"
  | IInt z => Z_to_string z
  end.

(** Four digits after the point. *)
Definition pad4 (s : string) : string :=
  match String.length s with
  | 0%nat => "0000" ++ s
  | 1%nat => "000" ++ s
  | 2%nat => "00" ++ s
  | 3%nat => "0" ++ s
  | _ => s
  end.

(** [x.toFixed(4)]: sign, integer part, a point and four digits; a tie in
    the fifth digit rounds the magnitude upwards (JavaScript prints so below
    10^21 in magnitude). *)
Definition toFixed4 (a : number) : string :=
  match a with
  | NaN => "NaN"
  | Infinity false => "Infinity"
  | Infinity true => "-Infinity"
  | Finite q =>
      let n := Qfloor (Qabs q * 10000 + (1 # 2)) in
      (if is_negative q then "-" else EmptyString) ++
      Z_to_string (n / 10000) ++ "." ++ pad4 (Z_to_string (n mod 10000))
  end.

(** White space of [trim] and [parseFloat], on the ASCII range. *)
Definition is_space (c : ascii) : bool :=
  let n := nat_of_ascii c in
  (n =? 32)%nat || ((9 <=? n)%nat && (n <=? 13)%nat).

Fixpoint trimStart (s : string) : string :=
  match s with
  | String c r => if is_space c then trimStart r else s
  | EmptyString => EmptyString
  end.

Fixpoint trimEnd (s : string) : string :=
  match s with
  | EmptyString => EmptyString
  | String c r =>
      match trimEnd r with
      | EmptyString => if is_space c then EmptyString else String c EmptyString
      | r' => String c r'
      end
  end.

Definition trim (s : string) : string := trimEnd (trimStart s).

(** [s.split(',')[0]]: the text before the first comma. *)
Fixpoint split_comma_0 (s : string) : string :=
  match s with
  | EmptyString => EmptyString
  | String c r => if Ascii.eqb c "," then EmptyString else String c (split_comma_0 r)
  end.

(** [s.toUpperCase()], on the ASCII letters. *)
Definition upper (c : ascii) : ascii :=
  let n := nat_of_ascii c in
  if (97 <=? n)%nat && (n <=? 122)%nat then ascii_of_nat (n - 32) else c.

Fixpoint toUpperCase (s : string) : string :=
  match s with
  | EmptyString => EmptyString
  | String c r => String (upper c) (toUpperCase r)
  end.

(** [s.toLowerCase()], on the ASCII letters. *)
Definition lower (c : ascii) : ascii :=
  let n := nat_of_ascii c in
  if (65 <=? n)%nat && (n <=? 90)%nat then ascii_of_nat (n + 32) else c.

Fixpoint toLowerCase (s : string) : string :=
  match s with
  | EmptyString => EmptyString
  | String c r => String (lower c) (toLowerCase r)
  end.

(** *** parseFloat *)

Definition digit_of (c : ascii) : option Z :=
  let n := nat_of_ascii c in
  if (48 <=? n)%nat && (n <=? 57)%nat then Some (Z.of_nat (n - 48)) else None.

(** Reads the longest run of digits: its value continued from [acc], the
    number of digits read and the rest of the text. *)
Fixpoint digits (s : string) (acc : Z) (count : nat) : Z * nat * string :=
  match s with
  | String c r =>
      match digit_of c with
      | Some d => digits r (10 * acc + d) (S count)
      | None => (acc, count, s)
      end
  | EmptyString => (acc, count, s)
  end.

Definition sign_of (s : string) : bool * string :=
  match s with
  | String "-" r => (true, r)
  | String "+" r => (false, r)
  | _ => (false, s)
  end.

(** The exponent part, read only when [e] is followed by digits. *)
Definition exponent (s : string) : Z :=
  match s with
  | String c r =>
      if Ascii.eqb c "e" || Ascii.eqb c "E" then
        let '(negative, r') := sign_of r in
        let '(e, n, _) := digits r' 0 0 in
        match n with
        | O => 0
        | _ => if negative then (- e) else e
        end
      else 0
  | EmptyString => 0
  end%Z.

Definition scale (m : Z) (e : Z) : Q :=
  if (0 <=? e)%Z then inject_Z (m * 10 ^ e) else m # Z.to_pos (10 ^ (- e)).

(** The unsigned decimal literal at the head of [s], if there is one. *)
Definition decimal (s : string) : option Q :=
  let '(ip, ni, r1) := digits s 0 0 in
  let '(m, nf, r2) :=
    match r1 with
    | String "." r => let '(m, nf, r2) := digits r ip 0 in (m, nf, r2)
    | _ => (ip, 0%nat, r1)
    end in
  match (ni + nf)%nat with
  | O => None
  | _ => Some (scale m (exponent r2 - Z.of_nat nf))
  end.

Definition parseFloat (s : string) : number :=
  let '(negative, r) := sign_of (trimStart s) in
  if String.prefix "Infinity" r then Infinity negative
  else match decimal r with
       | Some q => Finite (if negative then - q else q)
       | None => NaN
       end.

End JS.


(* ===================================================================== *)
(** ** src/FlightMap.tsx *)
(* ===================================================================== *)

Module FlightMap.
Import JS.

(** An element of [FlightMapProps.flights]. *)
Record Flight : Type := {
  id : string;
  callsign : string;
  country : string;
  longitude : number;
  latitude : number;
  altitude : string;
  velocity : string;
  heading : number
}.

(** [[lat, lon]]. *)
Definition LatLng : Type := (number * number)%type.

(** [L.divIcon] of [createPlaneIcon]: the glyph, size and anchor are
    constants, the rotation is the only part that varies. *)
Record Icon : Type := {
  className : string;
  rotate : number
}.

(** The values interpolated into the popup of a flight marker. *)
Record Popup : Type := {
  popup_callsign : string;
  popup_country : string;
  popup_altitude : string;
  popup_velocity : string;
  popup_heading : number
}.

(** [L.Marker] and [L.Polyline], each with the identifier Leaflet stamps
    on the object. *)
Record Marker : Type := {
  marker_id : nat;
  marker_latlng : LatLng;
  marker_icon : Icon;
  marker_popup : Popup
}.

Record Polyline : Type := {
  polyline_id : nat;
  polyline_latlngs : list LatLng
}.

(** [L.Map]: its view and the layers added to it. *)
Record LeafletMap : Type := {
  center : LatLng;
  zoom : nat;
  layers : gset nat
}.

Definition addTo (layer : nat) (m : LeafletMap) : LeafletMap :=
  {| center := center m; zoom := zoom m; layers := {[layer]} ∪ layers m |}.

Definition removeLayer (layer : nat) (m : LeafletMap) : LeafletMap :=
  {| center := center m; zoom := zoom m; layers := layers m ∖ {[layer]} |}.

(** [interface FlightMarkerData]. *)
Record FlightMarkerData : Type := {
  marker : Marker;
  polyline : option Polyline;
  track : list LatLng
}.

(** The refs of the component, and [lastId], Leaflet's counter of stamped
    objects. *)
Record Refs : Type := {
  mapRef : option LeafletMap;
  mapContainerRef : bool;
  flightMarkersRef : gmap string FlightMarkerData;
  mapInitializedRef : bool;
  lastId : nat
}.

Definition with_map (m : option LeafletMap) (r : Refs) : Refs :=
  {| mapRef := m; mapContainerRef := mapContainerRef r;
     flightMarkersRef := flightMarkersRef r;
     mapInitializedRef := mapInitializedRef r; lastId := lastId r |}.

Definition with_markers (g : gmap string FlightMarkerData) (r : Refs) : Refs :=
  {| mapRef := mapRef r; mapContainerRef := mapContainerRef r;
     flightMarkersRef := g;
     mapInitializedRef := mapInitializedRef r; lastId := lastId r |}.

Definition with_lastId (n : nat) (r : Refs) : Refs :=
  {| mapRef := mapRef r; mapContainerRef := mapContainerRef r;
     flightMarkersRef := flightMarkersRef r;
     mapInitializedRef := mapInitializedRef r; lastId := n |}.

Definition createPlaneIcon (heading : number) : Icon :=
  {| className := "custom-plane-icon"; rotate := heading |}.

(** [layer.remove()]: the layer leaves the map it was added to. *)
Definition remove (layer : nat) (r : Refs) : Refs :=
  with_map (removeLayer layer <$> mapRef r) r.

(** Body of the loop over [existingFlightIds]. *)
Definition evict (currentFlightIds : gset string) (r : Refs) (flightId : string) : Refs :=
  if decide (flightId ∈ currentFlightIds) then r
  else
    let r1 :=
      match flightMarkersRef r !! flightId with
      | Some flightData =>
          let r0 := remove (marker_id (marker flightData)) r in
          match polyline flightData with
          | Some p => remove (polyline_id p) r0
          | None => r0
          end
      | None => r
      end in
    with_markers (delete flightId (flightMarkersRef r1)) r1.

(** [p[0] !== q[0] || p[1] !== q[1]]. *)
Definition differs (p q : LatLng) : bool :=
  strict_neq (fst p) (fst q) || strict_neq (snd p) (snd q).

(** The test guarding [track.push(currentPos)]. *)
Definition moved (track : list LatLng) (currentPos : LatLng) : bool :=
  match last track with
  | None => true
  | Some p => differs p currentPos
  end.

Definition push (track : list LatLng) (currentPos : LatLng) : list LatLng :=
  if moved track currentPos then track ++ [currentPos] else track.

(** Callback of [flights.forEach], for a position that Leaflet accepts
    (see [Checked.callback] for the other case). *)
Definition upsert (r : Refs) (flight : Flight) : Refs :=
  let currentPos : LatLng := (latitude flight, longitude flight) in
  match flightMarkersRef r !! id flight with
  | Some existingData =>
      let marker' :=
        {| marker_id := marker_id (marker existingData);
           marker_latlng := currentPos;
           marker_icon := createPlaneIcon (heading flight);
           marker_popup := marker_popup (marker existingData) |} in
      let track' := push (track existingData) currentPos in
      match polyline existingData with
      | Some p =>
          let p' := {| polyline_id := polyline_id p; polyline_latlngs := track' |} in
          with_markers
            (<[id flight := {| marker := marker'; polyline := Some p'; track := track' |}]>
               (flightMarkersRef r)) r
      | None =>
          match mapRef r with
          | Some m =>
              if (1 <? length track')%nat then
                let newPolyline :=
                  {| polyline_id := S (lastId r); polyline_latlngs := track' |} in
                with_lastId (S (lastId r))
                  (with_map (Some (addTo (polyline_id newPolyline) m))
                     (with_markers
                        (<[id flight := {| marker := marker';
                                           polyline := Some newPolyline;
                                           track := track' |}]>
                           (flightMarkersRef r)) r))
              else
                with_markers
                  (<[id flight := {| marker := marker'; polyline := None; track := track' |}]>
                     (flightMarkersRef r)) r
          | None =>
              with_markers
                (<[id flight := {| marker := marker'; polyline := None; track := track' |}]>
                   (flightMarkersRef r)) r
          end
      end
  | None =>
      match mapRef r with
      | None => r
      | Some m =>
          let planeIcon := createPlaneIcon (heading flight) in
          let marker0 :=
            {| marker_id := S (lastId r);
               marker_latlng := currentPos;
               marker_icon := planeIcon;
               marker_popup :=
                 {| popup_callsign := callsign flight;
                    popup_country := country flight;
                    popup_altitude := altitude flight;
                    popup_velocity := velocity flight;
                    popup_heading := heading flight |} |} in
          with_lastId (S (lastId r))
            (with_map (Some (addTo (marker_id marker0) m))
               (with_markers
                  (<[id flight := {| marker := marker0;
                                     polyline := None;
                                     track := [currentPos] |}]>
                     (flightMarkersRef r)) r))
      end
  end.

(** The order in which a JavaScript [Map] lists its keys is the order of
    insertion; the loop over them removes a set of keys, so any order
    gives the same refs, and the keys are listed here as the finite map
    gives them. *)
Definition keys (g : gmap string FlightMarkerData) : list string :=
  (map_to_list g).*1.

Definition updateMapFlights (flights : list Flight) (r : Refs) : Refs :=
  match mapRef r with
  | None => r
  | Some _ =>
      let currentFlightIds : gset string := list_to_set (id <$> flights) in
      let existingFlightIds := keys (flightMarkersRef r) in
      let r1 := fold_left (evict currentFlightIds) existingFlightIds r in
      fold_left upsert flights r1
  end.

(** The effect that initialises the map once: the map, its tile layer
    and the marker of the city, for a centre that Leaflet accepts. *)
Definition initMap (cityCoords : LatLng) (r : Refs) : Refs :=
  if negb (mapContainerRef r) || mapInitializedRef r then r
  else
    let tileLayer := S (lastId r) in
    let cityMarker := S (S (lastId r)) in
    let m := {| center := cityCoords; zoom := 10; layers := ∅ |} in
    {| mapRef := Some (addTo cityMarker (addTo tileLayer m));
       mapContainerRef := mapContainerRef r;
       flightMarkersRef := flightMarkersRef r;
       mapInitializedRef := true;
       lastId := cityMarker |}.

(** The refs when the effects first run: React has attached the
    container [div], which every render returns, and [n] objects have
    been stamped by Leaflet so far. *)
Definition mounted (n : nat) : Refs :=
  {| mapRef := None; mapContainerRef := true; flightMarkersRef := ∅;
     mapInitializedRef := false; lastId := n |}.

(** The refs a mounted component goes through: the initialising effect
    runs first, then [updateMapFlights] runs for each [flights] prop.  The
    passes are those of [updateMapFlights] above: they contain every pass
    that Leaflet lets run to its end, after which alone another pass can
    follow. *)
Inductive reachable : Refs → Prop :=
| reach_init (n : nat) (cityCoords : LatLng) :
    reachable (initMap cityCoords (mounted n))
| reach_update (r : Refs) (flights : list Flight) :
    reachable r → reachable (updateMapFlights flights r).

(** The refs just before the callback of [forEach] runs on the flight
    that follows [flights_before] in the array [all]. *)
Definition during (flights_before : list Flight) (all : list Flight) (r : Refs) : Refs :=
  fold_left upsert flights_before
    (fold_left (evict (list_to_set (id <$> all))) (keys (flightMarkersRef r)) r).

(** *** Notions used to state the properties of the reconciler *)

(** The layers on the map. *)
Definition shown (r : Refs) : gset nat :=
  match mapRef r with
  | Some m => layers m
  | None => ∅
  end.

(** The Leaflet objects a tracked flight owns. *)
Definition handles (d : FlightMarkerData) : list nat :=
  marker_id (marker d) ::
  match polyline d with
  | Some p => [polyline_id p]
  | None => []
  end.

Definition position (flight : Flight) : LatLng := (latitude flight, longitude flight).

(** The flights of an array that carry the identifier [i]. *)
Definition carrying (i : string) (flights : list Flight) : list Flight :=
  filter (λ flight, id flight = i) flights.

(** A path overlay exists exactly for the tracks of two points or more. *)
Definition overlay_iff_two (d : FlightMarkerData) : Prop :=
  is_Some (polyline d) ↔ (2 ≤ length (track d))%nat.

(** What holds of the refs of a mounted component between two callbacks:
    the map exists; the objects of a tracked flight are stamped, on the map
    and owned by that flight alone; an overlay exists exactly for the tracks
    of two points or more; tracks are never empty. *)
Record invariant (r : Refs) : Prop := {
  inv_map : is_Some (mapRef r);
  inv_stamped : ∀ i d h,
    flightMarkersRef r !! i = Some d → h ∈ handles d → (h ≤ lastId r)%nat ∧ h ∈ shown r;
  inv_owned : ∀ i j d e h,
    flightMarkersRef r !! i = Some d → flightMarkersRef r !! j = Some e →
    h ∈ handles d → h ∈ handles e → i = j;
  inv_overlay : ∀ i d, flightMarkersRef r !! i = Some d → overlay_iff_two d;
  inv_track : ∀ i d, flightMarkersRef r !! i = Some d → track d ≠ []
}.

End FlightMap.

(* ===================================================================== *)
(** ** The network, as the components see it *)
(* ===================================================================== *)

Module Net.
Import JS.

(** What [await fetch(url)] followed by [await response.json()] gives:
    [fetch] rejects with an error, or resolves to a response with its
    [ok] flag whose [json()] either throws or yields the parsed body. *)
Inductive Fetched (A : Type) : Type :=
| Rejected (message : string)
| Response (ok : bool) (json : string + A).
Arguments Rejected {A} message.
Arguments Response {A} ok json.

(** An element of the geocoder's answer. *)
Record Place : Type := {
  lat : string;
  lon : string;
  display_name : string
}.

(** A state vector of the flight-state provider, [state: any[]], by the
    positions the components read; a position holding [null] is [None]. *)
Record StateVector : Type := {
  state0 : option string;
  state1 : option string;
  state2 : option string;
  state5 : option number;
  state6 : option number;
  state7 : option number;
  state8 : bool;
  state9 : option number;
  state10 : option number
}.

(** The body of the provider's answer; [states] may be [null]. *)
Record StatesBody : Type := {
  states : option (list StateVector)
}.

(** The four parameters of the provider's URL. *)
Record BoundingBox : Type := {
  lamin : number;
  lomin : number;
  lamax : number;
  lomax : number
}.

(** The geocoder is asked with its [q] parameter, the provider with a
    bounding box. *)
Record Network : Type := {
  nominatim : string → Fetched (list Place);
  opensky : BoundingBox → Fetched StatesBody
}.

(** The requests a call sends, in order. *)
Inductive Request : Type :=
| Geocode (q : string)
| States (box : BoundingBox).

End Net.

(* ===================================================================== *)
(** ** The normalisation of the provider's answer *)
(* ===================================================================== *)

Module Fetcher.
Import JS Net.

(** [interface Flight] of both tracker components. *)
Record Flight : Type := {
  id : string;
  callsign : string;
  country : string;
  longitude : string;
  latitude : string;
  altitude : string;
  velocity : string;
  heading : string;
  onGround : bool
}.

(** [v || d] for a string that may be [null]. *)
Definition or_else (v : option string) (d : string) : string :=
  match v with
  | Some s => or_string s d
  | None => d
  end.

(** [v ? `${Math.round(f(v))}suffix` : 'N/A'] for a number that may be
    [null]. *)
Definition rounded (v : option number) (f : number → number) (suffix : string) : string :=
  match v with
  | Some n =>
      if truthy n then integral_to_string (Math_round (f n)) ++ suffix
      else "N/A"
  | None => "N/A"
  end.

(** Callback of [data.states.map]. *)
Definition format (index : nat) (state : StateVector) : Flight :=
  {| id := or_else (state0 state) ("flight-" ++ Z_to_string (Z.of_nat index));
     callsign := or_else (trim <$> state1 state) "N/A";
     country := or_else (state2 state) "Unknown";
     longitude := or_else (toFixed4 <$> state5 state) "N/A";
     latitude := or_else (toFixed4 <$> state6 state) "N/A";
     altitude := rounded (state7 state) (λ a, a) " m";
     velocity := rounded (state9 state) (λ v, mul v (Finite (36 # 10))) " km/h";
     heading := rounded (state10 state) (λ h, h) "Â°";
     onGround := state8 state |}.

Definition formattedFlights (states : list StateVector) : list Flight :=
  filter (λ flight, negb (onGround flight) = true) (imap format states).

(** [flights.map(f => ({...f, longitude: parseFloat(f.longitude), ...}))],
    the value of the [flights] prop of the map view. *)
Definition toMap (f : Flight) : FlightMap.Flight :=
  {| FlightMap.id := id f;
     FlightMap.callsign := callsign f;
     FlightMap.country := country f;
     FlightMap.longitude := parseFloat (longitude f);
     FlightMap.latitude := parseFloat (latitude f);
     FlightMap.altitude := altitude f;
     FlightMap.velocity := velocity f;
     FlightMap.heading := or_number (parseFloat (heading f)) (Finite 0) |}.

Definition rateLimited : string :=
  "Failed to fetch flight data. The API might be rate-limited. Try again in a few moments.".

Definition fallback : string := "An error occurred while fetching flight data.".

Definition quote : string := String (ascii_of_nat 34) EmptyString.

End Fetcher.

(** How a [try] block ends: it runs to its end or returns, or it throws an
    error with a message. *)
Inductive Completion : Type :=
| Normal
| Throw (message : string).

(* ===================================================================== *)
(** ** src/FlightTracker.tsx *)
(* ===================================================================== *)

Module GlobalFlightTracker.
Import JS Net Fetcher.

Record Location : Type := {
  loc_lat : number;
  loc_lon : number;
  name : string;
  code : string
}.

(** The [useState] cells of the component. *)
Record State : Type := {
  searchQuery : string;
  flights : list Flight;
  loading : bool;
  error : string;
  searchedLocation : string;
  currentCoords : number * number;
  searchRadius : number;
  showMap : bool
}.

Definition setFlights (v : list Flight) (s : State) : State :=
  {| searchQuery := searchQuery s; flights := v; loading := loading s;
     error := error s; searchedLocation := searchedLocation s;
     currentCoords := currentCoords s; searchRadius := searchRadius s;
     showMap := showMap s |}.

Definition setLoading (v : bool) (s : State) : State :=
  {| searchQuery := searchQuery s; flights := flights s; loading := v;
     error := error s; searchedLocation := searchedLocation s;
     currentCoords := currentCoords s; searchRadius := searchRadius s;
     showMap := showMap s |}.

Definition setError (v : string) (s : State) : State :=
  {| searchQuery := searchQuery s; flights := flights s; loading := loading s;
     error := v; searchedLocation := searchedLocation s;
     currentCoords := currentCoords s; searchRadius := searchRadius s;
     showMap := showMap s |}.

Definition setSearchedLocation (v : string) (s : State) : State :=
  {| searchQuery := searchQuery s; flights := flights s; loading := loading s;
     error := error s; searchedLocation := v;
     currentCoords := currentCoords s; searchRadius := searchRadius s;
     showMap := showMap s |}.

Definition setCurrentCoords (v : number * number) (s : State) : State :=
  {| searchQuery := searchQuery s; flights := flights s; loading := loading s;
     error := error s; searchedLocation := searchedLocation s;
     currentCoords := v; searchRadius := searchRadius s;
     showMap := showMap s |}.

(** One geocoder lookup of [searchAirport]: the block from [fetch] to the
    [return] of the first element, which the function has twice. *)
Inductive Lookup : Type :=
| Threw
| NoResult
| Found (l : Location).

Definition lookup (query : string) (r : Fetched (list Place)) : Lookup :=
  match r with
  | Rejected _ => Threw
  | Response ok json =>
      if ok then
        match json with
        | inl _ => Threw
        | inr [] => NoResult
        | inr (p :: _) =>
            Found {| loc_lat := parseFloat (lat p);
                     loc_lon := parseFloat (lon p);
                     name := split_comma_0 (display_name p);
                     code := toUpperCase query |}
        end
      else NoResult
  end.

(** [searchAirport]: the requests it sends and what it resolves to
    ([None] is [null]); the [catch] turns every error into [null]. *)
Definition searchAirport (net : Network) (query : string)
  : list Request * option Location :=
  let airport := query ++ " airport" in
  match lookup query (nominatim net airport) with
  | Threw => ([Geocode airport], None)
  | Found l => ([Geocode airport], Some l)
  | NoResult =>
      match lookup query (nominatim net query) with
      | Threw => ([Geocode airport; Geocode query], None)
      | Found l => ([Geocode airport; Geocode query], Some l)
      | NoResult => ([Geocode airport; Geocode query], None)
      end
  end.

(** *** Notions used to state the properties of the resolver *)





Definition notFound (searchTerm : string) : string :=
  "Could not find location " ++ quote ++ searchTerm ++ quote ++
  ". Try using an airport code (e.g., JFK, LHR, BOM, CDG) or city name (e.g., New York, London, Mumbai).".

Definition noFlights (place : string) : string :=
  "No flights currently detected near " ++ place ++
  ". This could mean there are no aircraft in the area right now, or try increasing the search radius.".

Definition boundingBox (lat lon radius : number) : BoundingBox :=
  {| lamin := sub lat radius; lomin := sub lon radius;
     lamax := add lat radius; lomax := add lon radius |}.

(** The [try] block of [fetchFlights]. *)
Definition attempt (net : Network) (searchTerm : string) (s : State)
  : State * list Request * Completion :=
  let '(sent, locationInfo) := searchAirport net searchTerm in
  match locationInfo with
  | None => (setLoading false (setError (notFound searchTerm) s), sent, Normal)
  | Some locationInfo =>
      let s1 := setCurrentCoords (loc_lat locationInfo, loc_lon locationInfo)
                  (setSearchedLocation (name locationInfo) s) in
      let radius := searchRadius s1 in
      let latMin := sub (loc_lat locationInfo) radius in
      let latMax := add (loc_lat locationInfo) radius in
      let lonMin := sub (loc_lon locationInfo) radius in
      let lonMax := add (loc_lon locationInfo) radius in
      let url := {| lamin := latMin; lomin := lonMin; lamax := latMax; lomax := lonMax |} in
      let sent1 := (sent ++ [States url])%list in
      match opensky net url with
      | Rejected message => (s1, sent1, Throw message)
      | Response ok json =>
          if negb ok then (s1, sent1, Throw rateLimited)
          else
            match json with
            | inl message => (s1, sent1, Throw message)
            | inr data =>
                match states data with
                | None | Some [] =>
                    (setLoading false (setError (noFlights (name locationInfo)) s1),
                     sent1, Normal)
                | Some l =>
                    (setError EmptyString (setFlights (formattedFlights l) s1),
                     sent1, Normal)
                end
            end
      end
  end.

(** [fetchFlights]: the state once the promise settles, and the requests
    sent, for a fetch during which no other fetch updates the state. *)
Definition fetchFlights (net : Network) (searchTerm : string) (s : State)
  : State * list Request :=
  let s0 := setFlights [] (setError EmptyString (setLoading true s)) in
  let '(s1, sent, completion) := attempt net searchTerm s0 in
  let s2 :=
    match completion with
    | Throw message => setError (or_string message fallback) s1
    | Normal => s1
    end in
  (setLoading false s2, sent).

(** The [flights] prop handed to the map view, when it is rendered. *)
Definition mapFlights (s : State) : option (list FlightMap.Flight) :=
  if negb (loading s) && (0 <? length (flights s))%nat && showMap s
  then Some (toMap <$> flights s) else None.

End GlobalFlightTracker.

(* ===================================================================== *)
(** ** The tracker over the table of cities *)
(* ===================================================================== *)

Module FlightTracker.
Import JS Net Fetcher.

Record CityCoordinates : Type := {
  lat : number;
  lon : number;
  radius : number
}.

Record State : Type := {
  city : string;
  flights : list Flight;
  loading : bool;
  error : string;
  searchedCity : string;
  showMap : bool;
  currentCityCoords : number * number
}.

Definition setFlights (v : list Flight) (s : State) : State :=
  {| city := city s; flights := v; loading := loading s; error := error s;
     searchedCity := searchedCity s; showMap := showMap s;
     currentCityCoords := currentCityCoords s |}.

Definition setLoading (v : bool) (s : State) : State :=
  {| city := city s; flights := flights s; loading := v; error := error s;
     searchedCity := searchedCity s; showMap := showMap s;
     currentCityCoords := currentCityCoords s |}.

Definition setError (v : string) (s : State) : State :=
  {| city := city s; flights := flights s; loading := loading s; error := v;
     searchedCity := searchedCity s; showMap := showMap s;
     currentCityCoords := currentCityCoords s |}.

Definition setSearchedCity (v : string) (s : State) : State :=
  {| city := city s; flights := flights s; loading := loading s; error := error s;
     searchedCity := v; showMap := showMap s;
     currentCityCoords := currentCityCoords s |}.

Definition setCurrentCityCoords (v : number * number) (s : State) : State :=
  {| city := city s; flights := flights s; loading := loading s; error := error s;
     searchedCity := searchedCity s; showMap := showMap s;
     currentCityCoords := v |}.

Definition entry (la lo : Q) : CityCoordinates :=
  {| lat := Finite la; lon := Finite lo; radius := Finite 0.5 |}.

(** The own properties of the [cityCoordinates] object. *)
Definition cityCoordinates : list (string * CityCoordinates) :=
  [ ("bangalore", entry 12.9716 77.5946);
    ("bengaluru", entry 12.9716 77.5946);
    ("mumbai", entry 19.0760 72.8777);
    ("delhi", entry 28.7041 77.1025);
    ("chennai", entry 13.0827 80.2707);
    ("kolkata", entry 22.5726 88.3639);
    ("hyderabad", entry 17.3850 78.4867);
    ("pune", entry 18.5204 73.8567);
    ("ahmedabad", entry 23.0225 72.5714);
    ("kochi", entry 9.9312 76.2673);
    ("goa", entry 15.2993 74.1240) ].

Fixpoint get (key : string) (table : list (string * CityCoordinates))
  : option CityCoordinates :=
  match table with
  | [] => None
  | (k, v) :: rest => if String.eqb k key then Some v else get key rest
  end.

(** [cityCoordinates[normalizedCity]]: an own property, or a member the
    object inherits; [None] is [undefined].  Of the inherited names only
    these two are in lower case, as the normalised key is; their values are
    truthy and have no [lat], [lon] or [radius], so the three read as
    [undefined], which the arithmetic of the bounding box takes for NaN. *)
Definition inherited : list string := ["constructor"; "__proto__"].

Definition member (key : string) : option CityCoordinates :=
  match get key cityCoordinates with
  | Some coords => Some coords
  | None =>
      if existsb (String.eqb key) inherited
      then Some {| lat := NaN; lon := NaN; radius := NaN |}
      else None
  end.

Definition cityNotFound (cityName : string) : string :=
  "City " ++ quote ++ cityName ++ quote ++
  " not found. Try: Bangalore, Mumbai, Delhi, Chennai, Kolkata, Hyderabad, Pune, Ahmedabad, Kochi, or Goa.".

Definition noFlights (cityName : string) : string :=
  "No flights currently detected over " ++ cityName ++
  ". This could mean there are no aircraft in the area right now.".

(** The [try] block of [fetchFlights]. *)
Definition attempt (net : Network) (cityName : string) (s : State)
  : State * list Request * Completion :=
  let normalizedCity := trim (toLowerCase cityName) in
  match member normalizedCity with
  | None => (setLoading false (setError (cityNotFound cityName) s), [], Normal)
  | Some coords =>
      let s1 := setCurrentCityCoords (lat coords, lon coords)
                  (setSearchedCity cityName s) in
      let latMin := sub (lat coords) (radius coords) in
      let latMax := add (lat coords) (radius coords) in
      let lonMin := sub (lon coords) (radius coords) in
      let lonMax := add (lon coords) (radius coords) in
      let url := {| lamin := latMin; lomin := lonMin; lamax := latMax; lomax := lonMax |} in
      match opensky net url with
      | Rejected message => (s1, [States url], Throw message)
      | Response ok json =>
          if negb ok then (s1, [States url], Throw rateLimited)
          else
            match json with
            | inl message => (s1, [States url], Throw message)
            | inr data =>
                match states data with
                | None | Some [] =>
                    (setLoading false (setError (noFlights cityName) s1),
                     [States url], Normal)
                | Some l =>
                    (setError EmptyString (setFlights (formattedFlights l) s1),
                     [States url], Normal)
                end
            end
      end
  end.

Definition fetchFlights (net : Network) (cityName : string) (s : State)
  : State * list Request :=
  let s0 := setError EmptyString (setLoading true s) in
  let '(s1, sent, completion) := attempt net cityName s0 in
  let s2 :=
    match completion with
    | Throw message => setError (or_string message fallback) s1
    | Normal => s1
    end in
  (setLoading false s2, sent).

Definition mapFlights (s : State) : option (list FlightMap.Flight) :=
  if negb (loading s) && (0 <? length (flights s))%nat && showMap s
  then Some (toMap <$> flights s) else None.

End FlightTracker.

(* ===================================================================== *)
(** ** Properties of the map reconciler *)
(* ===================================================================== *)

Module Reconciler.
Import JS FlightMap.

Local Open Scope nat_scope.
Local Open Scope list_scope.

Ltac refs := unfold remove, with_markers, with_map, with_lastId, shown in *; simpl in *.

(** *** The eviction loop *)

Section Evict.
Variable currentFlightIds : gset string.
Abbreviation step := (evict currentFlightIds).

Lemma shown_remove h k r : h ∈ shown (remove k r) ↔ h ∈ shown r ∧ h ≠ k.
Proof.
  unfold shown, remove. simpl. destruct (mapRef r) as [m|]; simpl; set_solver.
Qed.

Lemma evict_lastId r i : lastId (step r i) = lastId r.
Proof.
  unfold evict. case_decide; [done|].
  destruct (flightMarkersRef r !! i) as [d|]; [|done].
  destruct (polyline d); done.
Qed.

Lemma evict_mapRef r i : is_Some (mapRef r) → is_Some (mapRef (step r i)).
Proof.
  intros [m Hm]. unfold evict. case_decide; [by rewrite Hm|].
  destruct (flightMarkersRef r !! i) as [d|]; [|by simpl; rewrite Hm].
  destruct (polyline d); simpl; rewrite Hm; simpl; eauto.
Qed.

Lemma evict_lookup r i j :
  flightMarkersRef (step r i) !! j =
  if decide (i = j ∧ i ∉ currentFlightIds) then None else flightMarkersRef r !! j.
Proof.
  unfold evict. case_decide as Hin.
  - case_decide as H; [by destruct H|done].
  - assert (flightMarkersRef
              match flightMarkersRef r !! i with
              | Some flightData =>
                  match polyline flightData with
                  | Some p => remove (polyline_id p) (remove (marker_id (marker flightData)) r)
                  | None => remove (marker_id (marker flightData)) r
                  end
              | None => r
              end = flightMarkersRef r) as Heq.
    { destruct (flightMarkersRef r !! i) as [d|]; [|done]. by destruct (polyline d). }
    simpl. rewrite Heq. case_decide as H.
    + destruct H as [-> _]. apply lookup_delete_eq.
    + apply lookup_delete_ne. intros ->. by apply H.
Qed.

Lemma evict_shown r i h :
  h ∈ shown (step r i) ↔
  h ∈ shown r ∧
  (i ∈ currentFlightIds ∨ ∀ d, flightMarkersRef r !! i = Some d → h ∉ handles d).
Proof.
  unfold evict. case_decide as Hin; [naive_solver|].
  destruct (flightMarkersRef r !! i) as [d|] eqn:Hd.
  - unfold handles. destruct (polyline d) as [p|] eqn:Hp.
    + change (shown (with_markers _ ?x)) with (shown x).
      rewrite !shown_remove. split.
      * intros [[? ?] ?]. split; [done|]. right. intros ? [= <-]. rewrite Hp. set_solver.
      * intros [? [?|H]]; [done|]. specialize (H d eq_refl). rewrite Hp in H. set_solver.
    + change (shown (with_markers _ ?x)) with (shown x).
      rewrite !shown_remove. split.
      * intros [? ?]. split; [done|]. right. intros ? [= <-]. rewrite Hp. set_solver.
      * intros [? [?|H]]; [done|]. specialize (H d eq_refl). rewrite Hp in H. set_solver.
  - change (shown (with_markers _ ?x)) with (shown x). naive_solver.
Qed.

Lemma evict_invariant r i : invariant r → invariant (step r i).
Proof.
  intros [Hmap Hst Hown Hov Htr]. split.
  - by apply evict_mapRef.
  - intros j d h. rewrite evict_lookup, evict_lastId. case_decide as Hc; [done|].
    intros Hj Hh. destruct (Hst j d h Hj Hh) as [Hle Hsh]. split; [done|].
    apply evict_shown. split; [done|].
    destruct (decide (i ∈ currentFlightIds)) as [|Hni]; [by left|right].
    intros e He Hhe. apply Hc. split; [|done].
    by apply (Hown i j e d h).
  - intros j k d e h. rewrite !evict_lookup. repeat case_decide; try done.
    apply Hown.
  - intros j d. rewrite evict_lookup. case_decide; [done|]. apply Hov.
  - intros j d. rewrite evict_lookup. case_decide; [done|]. apply Htr.
Qed.

(** The loop over any list of keys. *)
Lemma evicted_lookup l r j :
  flightMarkersRef (fold_left step l r) !! j =
  if decide (j ∈ l ∧ j ∉ currentFlightIds) then None else flightMarkersRef r !! j.
Proof.
  revert r. induction l as [|i l IH]; intros r; cbn [fold_left].
  - case_decide as H; [|done]. destruct H as [H _]. by apply elem_of_nil in H.
  - rewrite IH, evict_lookup. repeat case_decide; try done.
    all: exfalso; destruct (decide (i = j)); set_solver.
Qed.

Lemma evicted_lastId l r : lastId (fold_left step l r) = lastId r.
Proof.
  revert r. induction l as [|i l IH]; intros r; simpl; [done|].
  by rewrite IH, evict_lastId.
Qed.

Lemma evicted_invariant l r : invariant r → invariant (fold_left step l r).
Proof.
  revert r. induction l as [|i l IH]; intros r H; simpl; [done|].
  by apply IH, evict_invariant.
Qed.

Lemma evicted_shown_subseteq l r : shown (fold_left step l r) ⊆ shown r.
Proof.
  revert r. induction l as [|i l IH]; intros r; simpl; [done|].
  etrans; [apply IH|]. intros h. rewrite evict_shown. tauto.
Qed.

Lemma evicted_off_map l r i d h :
  i ∈ l → i ∉ currentFlightIds → flightMarkersRef r !! i = Some d →
  h ∈ handles d → h ∉ shown (fold_left step l r).
Proof.
  revert r. induction l as [|k l IH]; intros r Hin Hni Hd Hh; simpl.
  - by apply elem_of_nil in Hin.
  - destruct (decide (k = i)) as [->|Hne].
    + intros Hsh. apply evicted_shown_subseteq, evict_shown in Hsh.
      destruct Hsh as [_ [?|H]]; [done|]. by apply (H d).
    + apply elem_of_cons in Hin as [->|Hin]; [done|].
      apply IH; try done. rewrite evict_lookup. case_decide as Hc; [|done].
      by destruct Hc.
Qed.

End Evict.

(** *** The callback of [forEach] *)

Ltac upsert_cases r flight :=
  unfold upsert;
  destruct (flightMarkersRef r !! id flight) as [existingData|] eqn:Hget;
  [ destruct (polyline existingData) as [p|] eqn:Hpoly;
    [ | destruct (mapRef r) as [m|] eqn:Hmap;
        [ destruct (1 <? length (push (track existingData)
                                   (latitude flight, longitude flight))) eqn:Hlen | ] ]
  | destruct (mapRef r) as [m|] eqn:Hmap ];
  cbn [flightMarkersRef mapRef lastId with_markers with_map with_lastId
       marker polyline track marker_id polyline_id].

Lemma push_length t p : length (push t p) = length t ∨ length (push t p) = S (length t).
Proof.
  unfold push. destruct (moved t p); [right|by left].
  rewrite length_app. simpl. lia.
Qed.

Lemma push_nonempty t p : push t p ≠ [].
Proof.
  unfold push, moved. destruct t as [|q t]; [done|].
  destruct (last (q :: t)); [|done]. by destruct (differs _ _).
Qed.

Lemma upsert_lookup_ne r flight j :
  id flight ≠ j → flightMarkersRef (upsert r flight) !! j = flightMarkersRef r !! j.
Proof.
  intros Hne. upsert_cases r flight; try done; by rewrite lookup_insert_ne.
Qed.

Lemma upsert_lastId r flight :
  lastId (upsert r flight) = lastId r ∨ lastId (upsert r flight) = S (lastId r).
Proof. upsert_cases r flight; auto. Qed.

Lemma upsert_mapRef r flight : is_Some (mapRef r) → is_Some (mapRef (upsert r flight)).
Proof. intros [m0 Hm0]. upsert_cases r flight; eauto; congruence. Qed.

Lemma upsert_shown r flight h :
  h ∈ shown (upsert r flight) →
  h ∈ shown r ∨ (h = S (lastId r) ∧ lastId (upsert r flight) = S (lastId r)).
Proof.
  unfold shown. upsert_cases r flight; try rewrite Hmap; auto.
  all: unfold addTo; simpl; set_solver.
Qed.

Lemma upsert_shown_mono r flight : shown r ⊆ shown (upsert r flight).
Proof.
  unfold shown. upsert_cases r flight; try rewrite Hmap; try done.
  all: unfold addTo; simpl; set_solver.
Qed.

(** The track of a flight already tracked. *)
Lemma upsert_existing r flight d :
  flightMarkersRef r !! id flight = Some d →
  ∃ d', flightMarkersRef (upsert r flight) !! id flight = Some d' ∧
        track d' = push (track d) (position flight) ∧
        marker_id (marker d') = marker_id (marker d).
Proof.
  intros Hd. upsert_cases r flight; try done.
  all: injection Hd as ->; rewrite lookup_insert_eq; eauto.
Qed.

(** The entry of a flight seen for the first time. *)
Lemma upsert_new r flight :
  flightMarkersRef r !! id flight = None → is_Some (mapRef r) →
  ∃ d', flightMarkersRef (upsert r flight) !! id flight = Some d' ∧
        track d' = [position flight] ∧ polyline d' = None.
Proof.
  intros Hd [m0 Hm0]. upsert_cases r flight; try done.
  rewrite lookup_insert_eq; eauto.
Qed.

Lemma upsert_dom r flight :
  is_Some (mapRef r) →
  dom (flightMarkersRef (upsert r flight)) = {[id flight]} ∪ dom (flightMarkersRef r).
Proof.
  intros [m0 Hm0]. upsert_cases r flight; try done.
  all: by rewrite dom_insert_L.
Qed.

(** Where the objects of an entry come from. *)
Lemma upsert_handles r flight j d' h :
  is_Some (mapRef r) →
  flightMarkersRef (upsert r flight) !! j = Some d' → h ∈ handles d' →
  (∃ d, flightMarkersRef r !! j = Some d ∧ h ∈ handles d) ∨
  (j = id flight ∧ h = S (lastId r) ∧ lastId (upsert r flight) = S (lastId r) ∧
   h ∈ shown (upsert r flight)).
Proof.
  intros [m0 Hm0]. unfold shown, handles.
  destruct (decide (id flight = j)) as [<-|Hne].
  - upsert_cases r flight; try done; try (by eauto).
    all: rewrite lookup_insert_eq; intros [= <-]; simpl.
    + intros Hh. left. exists existingData. rewrite Hpoly. eauto.
    + intros Hh. apply elem_of_cons in Hh as [->|Hh].
      * left. exists existingData. split; [done|]. apply elem_of_cons. by left.
      * apply list_elem_of_singleton in Hh as ->. right.
        unfold addTo. simpl. set_solver.
    + intros Hh. left. exists existingData. rewrite Hpoly. eauto.
    + intros Hh. apply list_elem_of_singleton in Hh as ->. right.
      unfold addTo. simpl. set_solver.
  - rewrite upsert_lookup_ne; [|done]. eauto.
Qed.

Lemma upsert_overlay r flight j d' :
  invariant r →
  flightMarkersRef (upsert r flight) !! j = Some d' → overlay_iff_two d' ∧ track d' ≠ [].
Proof.
  intros [[m0 Hm0] _ _ Hov Htr]. unfold overlay_iff_two.
  destruct (decide (id flight = j)) as [<-|Hne].
  - upsert_cases r flight; try done.
    all: rewrite lookup_insert_eq; intros [= <-]; simpl.
    + split; [|apply push_nonempty]. split; [|by eauto].
      intros _. pose proof (Hov _ _ Hget) as [H _]. rewrite Hpoly in H.
      specialize (H (mk_is_Some _ _ eq_refl)).
      destruct (push_length (track existingData) (latitude flight, longitude flight)); lia.
    + split; [|apply push_nonempty]. apply Nat.ltb_lt in Hlen. split; [lia|by eauto].
    + split; [|apply push_nonempty]. apply Nat.ltb_ge in Hlen. split; [by intros [? ?]|lia].
    + split; [|done]. split; [by intros [? ?]|lia].
  - rewrite upsert_lookup_ne; [|done]. intros H. split; [by eapply Hov|by eapply Htr].
Qed.

Lemma upsert_invariant r flight : invariant r → invariant (upsert r flight).
Proof.
  intros Hinv. pose proof Hinv as [Hmap Hst Hown Hov Htr]. split.
  - by apply upsert_mapRef.
  - intros j d' h Hj Hh.
    destruct (upsert_handles _ _ _ _ _ Hmap Hj Hh) as [(d & Hd & Hhd)|(_ & -> & Hl & Hs)].
    + destruct (Hst _ _ _ Hd Hhd) as [Hle Hsh]. split.
      * destruct (upsert_lastId r flight) as [->| ->]; lia.
      * by apply upsert_shown_mono.
    + split; [lia|done].
  - intros i j d e h Hi Hj Hhd Hhe.
    destruct (upsert_handles _ _ _ _ _ Hmap Hi Hhd) as [(d0 & Hd0 & Hhd0)|(-> & -> & _)];
    destruct (upsert_handles _ _ _ _ _ Hmap Hj Hhe) as [(e0 & He0 & Hhe0)|(-> & Heq & _)].
    + by eapply Hown.
    + destruct (Hst _ _ _ Hd0 Hhd0). lia.
    + destruct (Hst _ _ _ He0 Hhe0). lia.
    + done.
  - intros j d' Hj. by eapply upsert_overlay.
  - intros j d' Hj. by eapply upsert_overlay.
Qed.

(** *** The loop of [forEach] *)

Lemma upserted_invariant l r : invariant r → invariant (fold_left upsert l r).
Proof.
  revert r. induction l as [|flight l IH]; intros r H; cbn [fold_left]; [done|].
  by apply IH, upsert_invariant.
Qed.

Lemma upserted_lookup_notin l r j :
  j ∉ id <$> l → flightMarkersRef (fold_left upsert l r) !! j = flightMarkersRef r !! j.
Proof.
  revert r. induction l as [|flight l IH]; intros r H; cbn [fold_left]; [done|].
  rewrite fmap_cons in H. apply not_elem_of_cons in H as [Hne Hl].
  rewrite IH; [|done]. by apply upsert_lookup_ne.
Qed.

Lemma upserted_dom l r :
  is_Some (mapRef r) →
  dom (flightMarkersRef (fold_left upsert l r)) =
  list_to_set (id <$> l) ∪ dom (flightMarkersRef r).
Proof.
  revert r. induction l as [|flight l IH]; intros r H; cbn [fold_left].
  - set_solver.
  - rewrite IH; [|by apply upsert_mapRef]. rewrite upsert_dom; [|done].
    rewrite fmap_cons. set_solver.
Qed.

Lemma upserted_lastId l r : lastId r ≤ lastId (fold_left upsert l r).
Proof.
  revert r. induction l as [|flight l IH]; intros r; cbn [fold_left]; [done|].
  etrans; [|apply IH]. destruct (upsert_lastId r flight) as [->| ->]; lia.
Qed.

Lemma upserted_shown l r h :
  h ∈ shown (fold_left upsert l r) → h ∈ shown r ∨ lastId r < h.
Proof.
  revert r. induction l as [|flight l IH]; intros r H; cbn [fold_left] in H; [by left|].
  apply IH in H as [H|H].
  - apply upsert_shown in H as [H|[-> _]]; [by left|right; lia].
  - right. destruct (upsert_lastId r flight) as [Heq|Heq]; rewrite Heq in H; lia.
Qed.

(** *** A pass *)

Lemma elem_of_keys (g : gmap string FlightMarkerData) j :
  j ∈ keys g ↔ is_Some (g !! j).
Proof.
  unfold keys. rewrite list_elem_of_fmap. split.
  - intros [[k d] [-> H]]. apply elem_of_map_to_list in H. by eexists.
  - intros [d H]. exists (j, d). split; [done|]. by apply elem_of_map_to_list.
Qed.

Lemma update_during flights r :
  is_Some (mapRef r) → updateMapFlights flights r = during flights flights r.
Proof. intros [m Hm]. unfold updateMapFlights, during. by rewrite Hm. Qed.

Lemma during_nil_lookup flights r j :
  flightMarkersRef (during [] flights r) !! j =
  if decide (j ∈ id <$> flights) then flightMarkersRef r !! j else None.
Proof.
  unfold during. cbn [fold_left]. rewrite evicted_lookup.
  case_decide as H1; case_decide as H2; try done.
  - destruct H1 as [_ H1]. exfalso. apply H1. by apply elem_of_list_to_set.
  - destruct (flightMarkersRef r !! j) eqn:E; [|done].
    exfalso. apply H1. split; [apply elem_of_keys; by eexists|].
    by rewrite elem_of_list_to_set.
Qed.

Lemma during_lookup_notin before flights r j :
  j ∉ id <$> before →
  flightMarkersRef (during before flights r) !! j =
  flightMarkersRef (during [] flights r) !! j.
Proof. intros H. unfold during. cbn [fold_left]. by apply upserted_lookup_notin. Qed.

Lemma during_invariant before flights r : invariant r → invariant (during before flights r).
Proof. intros H. by apply upserted_invariant, evicted_invariant. Qed.

Lemma update_invariant flights r : invariant r → invariant (updateMapFlights flights r).
Proof.
  intros H. rewrite update_during; [|by destruct H]. by apply during_invariant.
Qed.

Lemma reachable_invariant r : reachable r → invariant r.
Proof.
  induction 1 as [n c|r flights _ IH]; [|by apply update_invariant].
  unfold initMap, mounted. simpl. split; simpl; try (by eauto).
  all: intros; by rewrite ?lookup_empty in *.
Qed.

Lemma during_snoc before flight flights r :
  during (before ++ [flight]) flights r = upsert (during before flights r) flight.
Proof. unfold during. by rewrite fold_left_app. Qed.

Lemma during_app before after flights r :
  during (before ++ after) flights r = fold_left upsert after (during before flights r).
Proof. unfold during. by rewrite fold_left_app. Qed.

(** An identifier carried by exactly one flight of the array splits it. *)
Lemma carrying_nil i l : carrying i l = [] → i ∉ id <$> l.
Proof.
  unfold carrying. induction l as [|a l IH]; [intros _; apply not_elem_of_nil|].
  rewrite filter_cons. case_decide as Ha; [done|].
  intros H. rewrite fmap_cons. apply not_elem_of_cons. split; [congruence|by apply IH].
Qed.

Lemma carrying_one i l flight :
  carrying i l = [flight] →
  ∃ before after, l = before ++ flight :: after ∧ id flight = i ∧
                  (i ∉ id <$> before) ∧ (i ∉ id <$> after).
Proof.
  unfold carrying. induction l as [|a l IH]; [done|].
  rewrite filter_cons. case_decide as Ha.
  - intros [= -> Hl]. exists [], l. split; [done|]. split; [done|].
    split; [apply not_elem_of_nil|by apply carrying_nil].
  - intros H. destruct (IH H) as (before & after & -> & Hid & Hb & Haf).
    exists (a :: before), after. split; [done|]. split; [done|]. split; [|done].
    rewrite fmap_cons. apply not_elem_of_cons. split; [congruence|done].
Qed.

(** The entry, after a pass, of a flight tracked before it and carried
    once by the array. *)
Lemma update_track r flights i d flight :
  invariant r → flightMarkersRef r !! i = Some d → carrying i flights = [flight] →
  ∃ d', flightMarkersRef (updateMapFlights flights r) !! i = Some d' ∧
        track d' = push (track d) (position flight).
Proof.
  intros Hinv Hd Hone.
  destruct (carrying_one _ _ _ Hone) as (before & after & Hl & Hid & Hb & Ha).
  rewrite update_during; [|by destruct Hinv].
  assert (during flights flights r =
          fold_left upsert (flight :: after) (during before flights r)) as ->.
  { rewrite <- during_app. by rewrite <- Hl. }
  cbn [fold_left]. rewrite upserted_lookup_notin; [|done].
  assert (flightMarkersRef (during before flights r) !! id flight = Some d) as Hmid.
  { rewrite Hid. rewrite during_lookup_notin; [|done]. rewrite during_nil_lookup.
    case_decide as Hin; [done|]. exfalso. apply Hin.
    rewrite Hl, fmap_app, fmap_cons, Hid. set_solver. }
  destruct (upsert_existing _ _ _ Hmid) as (d' & Hd' & Ht & _).
  exists d'. by rewrite <- Hid.
Qed.

Lemma push_again t p : differs p p = false → push (push t p) p = push t p.
Proof.
  intros Hp. unfold push at 2 3. destruct (moved t p) eqn:Hm.
  - unfold push, moved. by rewrite last_snoc, Hp.
  - unfold push. by rewrite Hm.
Qed.

Lemma push_last t p q :
  last t = Some q → push t p = if differs q p then t ++ [p] else t.
Proof. intros H. unfold push, moved. by rewrite H. Qed.

(** *** The claims on the reconciler *)

(** C1. In every pass of [updateMapFlights] of a mounted map view, a
    tracked flight whose identifier is not among those of the new array
    has its marker and, if it has one, its path overlay taken off the map
    they were on, and its entry deleted from the mapping; no identifier
    foreign to the array is left in the mapping. *)
Theorem absent_flights_are_evicted
    (r : Refs) (flights : list Flight) (i : string) (d : FlightMarkerData) :
  reachable r → flightMarkersRef r !! i = Some d → i ∉ id <$> flights →
  (marker_id (marker d) ∈ shown r ∧
   marker_id (marker d) ∉ shown (updateMapFlights flights r)) ∧
  (∀ p, polyline d = Some p →
        polyline_id p ∈ shown r ∧ polyline_id p ∉ shown (updateMapFlights flights r)) ∧
  flightMarkersRef (updateMapFlights flights r) !! i = None ∧
  (∀ j, is_Some (flightMarkersRef (updateMapFlights flights r) !! j) → j ∈ id <$> flights).
Proof.
  intros Hr Hd Hi. pose proof (reachable_invariant _ Hr) as Hinv.
  pose proof Hinv as [Hmap Hst _ _ _].
  rewrite update_during; [|done].
  assert (∀ h, h ∈ handles d → h ∈ shown r ∧ h ∉ shown (during flights flights r)) as Hoff.
  { intros h Hh. destruct (Hst _ _ _ Hd Hh) as [Hle Hsh]. split; [done|].
    intros Hin. apply upserted_shown in Hin as [Hin|Hlt].
    - revert Hin. apply (evicted_off_map _ _ _ i d); try done.
      + apply elem_of_keys. by eexists.
      + by rewrite elem_of_list_to_set.
    - rewrite evicted_lastId in Hlt. lia. }
  split; [|split; [|split]].
  - apply Hoff. unfold handles. apply elem_of_cons. by left.
  - intros p Hp. apply Hoff. unfold handles. rewrite Hp. set_solver.
  - rewrite during_lookup_notin; [|done]. rewrite during_nil_lookup.
    by case_decide.
  - intros j Hj. apply elem_of_dom in Hj. unfold during in Hj.
    rewrite upserted_dom in Hj; [|by apply evicted_invariant].
    apply elem_of_union in Hj as [Hj|Hj]; [by apply elem_of_list_to_set in Hj|].
    change (j ∈ dom (flightMarkersRef (during [] flights r))) in Hj.
    apply elem_of_dom in Hj. rewrite during_nil_lookup in Hj. case_decide; [done|]. by destruct Hj.
Qed.

(** When every callback of the pass returns, the keys of the mapping
    after it are the identifiers that occur in the array. *)
Lemma keys_of_a_completed_pass (r : Refs) (flights : list Flight) :
  reachable r →
  dom (flightMarkersRef (updateMapFlights flights r)) = list_to_set (id <$> flights) ∧
  (∀ flight, flight ∈ flights →
             is_Some (flightMarkersRef (updateMapFlights flights r) !! id flight)) ∧
  (∀ j, is_Some (flightMarkersRef (updateMapFlights flights r) !! j) → j ∈ id <$> flights).
Proof.
  intros Hr. pose proof (reachable_invariant _ Hr) as Hinv.
  assert (dom (flightMarkersRef (updateMapFlights flights r)) =
          list_to_set (id <$> flights)) as Hdom.
  { rewrite update_during; [|by destruct Hinv]. unfold during.
    rewrite upserted_dom; [|by apply evicted_invariant].
    change (fold_left (evict (list_to_set (id <$> flights))) (keys (flightMarkersRef r)) r)
      with (during [] flights r).
    apply set_eq. intros j. rewrite elem_of_union, elem_of_dom.
    rewrite during_nil_lookup, elem_of_list_to_set.
    case_decide; [tauto|]. split; [|tauto]. intros [?|[? ?]]; done. }
  split; [done|]. split.
  - intros flight Hin. apply elem_of_dom. rewrite Hdom, elem_of_list_to_set.
    by apply list_elem_of_fmap_2.
  - intros j Hj. apply elem_of_dom in Hj. by rewrite Hdom, elem_of_list_to_set in Hj.
Qed.

(** C3. After every pass of a mounted map view, a tracked flight has a
    path overlay if and only if its track has at least two points.  At
    each callback of the pass: a flight not yet tracked gets an entry with
    the single point of its position and no overlay; for a flight already
    tracked, an overlay is created by the callback exactly when its track
    goes from fewer than two points to two or more. *)
Theorem overlay_iff_track_has_two_points (r : Refs) (flights : list Flight) :
  reachable r →
  (∀ i d, flightMarkersRef (updateMapFlights flights r) !! i = Some d →
          (is_Some (polyline d) ↔ 2 ≤ length (track d))) ∧
  (∀ before flight after, flights = before ++ flight :: after →
     updateMapFlights flights r =
       fold_left upsert after (upsert (during before flights r) flight) ∧
     match flightMarkersRef (during before flights r) !! id flight with
     | None =>
         ∃ d', flightMarkersRef (upsert (during before flights r) flight) !! id flight
               = Some d' ∧
               track d' = [position flight] ∧ polyline d' = None
     | Some d =>
         ∃ d', flightMarkersRef (upsert (during before flights r) flight) !! id flight
               = Some d' ∧
               ((polyline d = None ∧ is_Some (polyline d')) ↔
                (length (track d) < 2 ∧ 2 ≤ length (track d')))
     end).
Proof.
  intros Hr. pose proof (reachable_invariant _ Hr) as Hinv. split.
  - intros i d Hd. by apply (inv_overlay _ (update_invariant flights r Hinv) i d).
  - intros before flight after Hl. split.
    { rewrite update_during; [|by destruct Hinv].
      transitivity (during (before ++ flight :: after) flights r);
        [by rewrite <- Hl|by rewrite during_app]. }
    pose proof (during_invariant before flights r Hinv) as Hmid.
    pose proof (upsert_invariant _ flight Hmid) as Hnext.
    destruct (flightMarkersRef (during before flights r) !! id flight) as [d|] eqn:Hd.
    + destruct (upsert_existing _ _ _ Hd) as (d' & Hd' & _). exists d'. split; [done|].
      pose proof (inv_overlay _ Hmid _ _ Hd) as Ho.
      pose proof (inv_overlay _ Hnext _ _ Hd') as Ho'.
      unfold overlay_iff_two in *. split.
      * intros [Hnone Hsome]. split; [|by apply Ho'].
        destruct (decide (2 ≤ length (track d))) as [Hge|]; [|lia].
        apply Ho in Hge. rewrite Hnone in Hge. by destruct Hge.
      * intros [Hlt Hge]. split; [|by apply Ho'].
        destruct (polyline d) eqn:Hp; [|done].
        assert (2 ≤ length (track d)); [apply Ho; by eexists|lia].
    + apply upsert_new; [done|by destruct Hmid].
Qed.

(** When every callback of the pass returns, the track of a flight
    tracked before the pass, whose identifier one flight of the array
    carries, is the old track with the position pushed under the test of
    the callback. *)
Lemma track_of_a_flight_carried_once
    (r : Refs) (flights : list Flight) (i : string) (d : FlightMarkerData)
    (flight : Flight) :
  reachable r → flightMarkersRef r !! i = Some d → carrying i flights = [flight] →
  ∃ d' p,
    flightMarkersRef (updateMapFlights flights r) !! i = Some d' ∧
    last (track d) = Some p ∧
    (length (track d') = length (track d) ∨ length (track d') = S (length (track d))) ∧
    track d' = (if differs p (position flight)
                then track d ++ [position flight] else track d) ∧
    (track d' = track d ++ [position flight] ↔ differs p (position flight) = true) ∧
    (∀ flights2 flight2,
       carrying i flights2 = [flight2] → position flight2 = position flight →
       differs (position flight) (position flight) = false →
       ∃ d'', flightMarkersRef
                (updateMapFlights flights2 (updateMapFlights flights r)) !! i = Some d'' ∧
              track d'' = track d').
Proof.
  intros Hr Hd Hone. pose proof (reachable_invariant _ Hr) as Hinv.
  destruct (update_track _ _ _ _ _ Hinv Hd Hone) as (d' & Hd' & Ht).
  destruct (last (track d)) as [p|] eqn:Hlast.
  2: { apply last_None in Hlast. by destruct (inv_track _ Hinv _ _ Hd). }
  exists d', p. split; [done|]. split; [done|].
  pose proof (push_last _ (position flight) _ Hlast) as Hpush.
  split; [rewrite Ht; apply push_length|].
  split; [by rewrite Ht|]. split.
  - rewrite Ht, Hpush. destruct (differs p (position flight)); [done|].
    split; [|done]. intros H. apply (f_equal length) in H.
    rewrite length_app in H. simpl in H. lia.
  - intros flights2 flight2 Hone2 Hpos Hsame.
    destruct (update_track _ flights2 _ _ _ (update_invariant flights r Hinv) Hd' Hone2)
      as (d'' & Hd'' & Ht'').
    exists d''. split; [done|]. rewrite Ht'', Ht, Hpos. by apply push_again.
Qed.

(** *** The theorems at work on a small session *)

Definition plane (i : string) (la lo : Q) : Flight :=
  {| id := i; callsign := "AIC101"; country := "India";
     longitude := Finite lo; latitude := Finite la;
     altitude := "10000 m"; velocity := "800 km/h"; heading := Finite 90 |}.

(** A map view mounted over Bangalore, after a first pass that shows one
    aircraft. *)
Definition session0 : Refs := initMap (Finite 12.9716, Finite 77.5946) (mounted 0).
Definition session1 : Refs := updateMapFlights [plane "a" 13 77] session0.

Definition entry1 : FlightMarkerData :=
  {| marker :=
       {| marker_id := 3;
          marker_latlng := (Finite 13, Finite 77);
          marker_icon := createPlaneIcon (Finite 90);
          marker_popup :=
            {| popup_callsign := "AIC101"; popup_country := "India";
               popup_altitude := "10000 m"; popup_velocity := "800 km/h";
               popup_heading := Finite 90 |} |};
     polyline := None;
     track := [(Finite 13, Finite 77)] |}.

Lemma session1_reachable : reachable session1.
Proof. apply reach_update, reach_init. Qed.

Lemma session1_entry : flightMarkersRef session1 !! "a" = Some entry1.
Proof. vm_compute. reflexivity. Qed.

Lemma a_not_among_b : "a" ∉ id <$> [plane "b" 14 78].
Proof. apply not_elem_of_cons. split; [done|apply not_elem_of_nil]. Qed.

Lemma a_carried_once :
  carrying "a" [plane "b" 14 78; plane "a" 13.5 77] = [plane "a" 13.5 77].
Proof. reflexivity. Qed.

(** The aircraft [a] has left the area and [b] has entered it. *)
Lemma absent_flights_are_evicted_witness :
  reachable session1 ∧ flightMarkersRef session1 !! "a" = Some entry1 ∧
  ("a" ∉ id <$> [plane "b" 14 78]) ∧
  (marker_id (marker entry1) ∈ shown session1 ∧
   marker_id (marker entry1) ∉ shown (updateMapFlights [plane "b" 14 78] session1)) ∧
  (∀ p, polyline entry1 = Some p →
        polyline_id p ∈ shown session1 ∧
        polyline_id p ∉ shown (updateMapFlights [plane "b" 14 78] session1)) ∧
  flightMarkersRef (updateMapFlights [plane "b" 14 78] session1) !! "a" = None ∧
  (∀ j, is_Some (flightMarkersRef (updateMapFlights [plane "b" 14 78] session1) !! j) →
        j ∈ id <$> [plane "b" 14 78]).
Proof.
  split; [exact session1_reachable|]. split; [exact session1_entry|].
  split; [exact a_not_among_b|].
  exact (absent_flights_are_evicted session1 [plane "b" 14 78] "a" entry1
           session1_reachable session1_entry a_not_among_b).
Defined.

Lemma overlay_iff_track_has_two_points_witness :
  reachable session1 ∧
  ∀ i d,
    flightMarkersRef (updateMapFlights [plane "b" 14 78; plane "a" 13.5 77] session1) !! i
      = Some d →
    (is_Some (polyline d) ↔ 2 ≤ length (track d)).
Proof.
  split; [exact session1_reachable|].
  exact (proj1 (overlay_iff_track_has_two_points session1
                  [plane "b" 14 78; plane "a" 13.5 77] session1_reachable)).
Defined.

(** Two flights of one array carry the identifier [a]: the callback runs
    for each of them, and the track of [a] gains two points in one pass. *)
Lemma twice_carried_track :
  track <$> (flightMarkersRef
               (updateMapFlights [plane "a" 13.5 77; plane "a" 14 77] session1) !! "a")
  = Some [(Finite 13, Finite 77); (Finite 13.5, Finite 77); (Finite 14, Finite 77)].
Proof. vm_compute. reflexivity. Qed.

(** C2 as it is stated, for every identifier tracked before the pass and
    present in the array, fails on an array that carries the identifier
    twice. *)
Lemma track_grows_by_two_when_carried_twice :
  ¬ (∀ (r : Refs) (flights : list Flight) (i : string) (d d' : FlightMarkerData),
       reachable r → flightMarkersRef r !! i = Some d → i ∈ id <$> flights →
       flightMarkersRef (updateMapFlights flights r) !! i = Some d' →
       length (track d') = length (track d) ∨ length (track d') = S (length (track d))).
Proof.
  intros H. pose proof twice_carried_track as Ht.
  destruct (flightMarkersRef
              (updateMapFlights [plane "a" 13.5 77; plane "a" 14 77] session1) !! "a")
    as [d'|] eqn:Hd'; [|done].
  injection Ht as Ht.
  assert ("a" ∈ id <$> [plane "a" 13.5 77; plane "a" 14 77]) as Hin
    by (apply elem_of_cons; by left).
  specialize (H session1 _ "a" entry1 d' session1_reachable session1_entry Hin Hd').
  rewrite Ht in H. simpl in H. lia.
Qed.

End Reconciler.

(* ===================================================================== *)
(** ** Properties of the flight fetcher and of the location resolver *)
(* ===================================================================== *)

Module Fetching.
Import JS Net Fetcher.

Local Open Scope list_scope.

(** *** Normalisation *)

Lemma rounded_present n f suffix :
  truthy n = true →
  rounded (Some n) f suffix = (integral_to_string (Math_round (f n)) ++ suffix)%string.
Proof. intros H. unfold rounded. by rewrite H. Qed.

Lemma rounded_missing f suffix : rounded None f suffix = "N/A".
Proof. reflexivity. Qed.

Lemma rounded_zero f suffix : rounded (Some (Finite 0)) f suffix = "N/A".
Proof. reflexivity. Qed.

(** An airborne aircraft flying due north at 100 m/s. *)
Definition northbound : StateVector :=
  {| state0 := Some "800b12"; state1 := Some "AIC101  "; state2 := Some "India";
     state5 := Some (Finite 77.5946); state6 := Some (Finite 12.9716);
     state7 := Some (Finite 10000.4); state8 := false;
     state9 := Some (Finite 100); state10 := Some (Finite 0) |}.

(** C4, at a record whose heading is present and equal to 0: the altitude
    and the velocity are displayed rounded with their units (100 m/s is
    "360 km/h"), but the heading is displayed as "N/A", as if it were
    missing, because the test [state[10] ? ... : 'N/A'] takes 0 for an
    absent value. *)
Theorem zero_heading_displayed_as_missing :
  altitude (format 0 northbound) = "10000 m" ∧
  velocity (format 0 northbound) = "360 km/h" ∧
  longitude (format 0 northbound) = "77.5946" ∧
  heading (format 0 northbound) = "N/A" ∧
  heading (format 0 northbound) ≠ (integral_to_string (Math_round (Finite 0)) ++ "Â°")%string.
Proof. repeat split; try reflexivity. discriminate. Qed.

Lemma formatted_airborne states flight :
  flight ∈ formattedFlights states → onGround flight = false.
Proof.
  unfold formattedFlights. rewrite list_elem_of_filter. intros [H _].
  by apply negb_true_iff in H.
Qed.

(** C6. The list that normalisation produces holds no flight flagged
    on-ground: a record whose flag is true is dropped from it, a record
    whose flag is false is kept; and the list either tracker renders after
    a fetch holds no on-ground flight. *)
Theorem grounded_flights_are_excluded :
  (∀ states flight, flight ∈ formattedFlights states → onGround flight = false) ∧
  (∀ states index state,
     states !! index = Some state → state8 state = true →
     format index state ∉ formattedFlights states) ∧
  (∀ states index state,
     states !! index = Some state → state8 state = false →
     format index state ∈ formattedFlights states) ∧
  (∀ net searchTerm s flight,
     flight ∈ GlobalFlightTracker.flights
                (fst (GlobalFlightTracker.fetchFlights net searchTerm s)) →
     onGround flight = false) ∧
  (∀ net cityName s,
     (∀ flight, flight ∈ FlightTracker.flights s → onGround flight = false) →
     ∀ flight,
       flight ∈ FlightTracker.flights (fst (FlightTracker.fetchFlights net cityName s)) →
       onGround flight = false).
Proof.
  split; [exact formatted_airborne|]. split; [|split; [|split]].
  - intros states index state _ Hg Hin. apply formatted_airborne in Hin.
    simpl in Hin. congruence.
  - intros states index state Hl Hg. unfold formattedFlights.
    apply list_elem_of_filter. split; [simpl; by rewrite Hg|].
    apply elem_of_lookup_imap. eauto.
  - intros net searchTerm s flight.
    unfold GlobalFlightTracker.fetchFlights, GlobalFlightTracker.attempt.
    destruct (GlobalFlightTracker.searchAirport net searchTerm) as [sent [l|]]; simpl;
      [|by intros ?%elem_of_nil].
    destruct (opensky net _) as [m|[] [m|[[[|st l']|]]]]; simpl;
      try (by intros ?%elem_of_nil).
    apply formatted_airborne.
  - intros net cityName s Hs flight.
    unfold FlightTracker.fetchFlights, FlightTracker.attempt.
    destruct (FlightTracker.member _) as [c|]; simpl; [|by apply Hs].
    destruct (opensky net _) as [m|[] [m|[[[|st l']|]]]]; simpl;
      try (by apply Hs).
    apply formatted_airborne.
Qed.

(** *** The bounding box *)

(** The requests of a fetch.  The provider is asked once, after the
    location is known, for the box whose corners the code computes with its
    own [-] and [+] from the centre and the radius; an unknown location
    ends the fetch before the provider is asked. *)
Lemma provider_is_asked_once_for_the_box :
  (∀ net searchTerm s,
     match GlobalFlightTracker.searchAirport net searchTerm with
     | (sent, Some l) =>
         snd (GlobalFlightTracker.fetchFlights net searchTerm s) =
         sent ++ [States
                    {| lamin := sub (GlobalFlightTracker.loc_lat l)
                                    (GlobalFlightTracker.searchRadius s);
                       lomin := sub (GlobalFlightTracker.loc_lon l)
                                    (GlobalFlightTracker.searchRadius s);
                       lamax := add (GlobalFlightTracker.loc_lat l)
                                    (GlobalFlightTracker.searchRadius s);
                       lomax := add (GlobalFlightTracker.loc_lon l)
                                    (GlobalFlightTracker.searchRadius s) |}]
     | (sent, None) => snd (GlobalFlightTracker.fetchFlights net searchTerm s) = sent
     end) ∧
  (∀ net cityName s,
     match FlightTracker.member (trim (toLowerCase cityName)) with
     | Some c =>
         snd (FlightTracker.fetchFlights net cityName s) =
         [States
            {| lamin := sub (FlightTracker.lat c) (FlightTracker.radius c);
               lomin := sub (FlightTracker.lon c) (FlightTracker.radius c);
               lamax := add (FlightTracker.lat c) (FlightTracker.radius c);
               lomax := add (FlightTracker.lon c) (FlightTracker.radius c) |}]
     | None => snd (FlightTracker.fetchFlights net cityName s) = []
     end).
Proof.
  split.
  - intros net searchTerm s.
    unfold GlobalFlightTracker.fetchFlights, GlobalFlightTracker.attempt.
    destruct (GlobalFlightTracker.searchAirport net searchTerm) as [sent [l|]]; simpl;
      [|done].
    destruct (opensky net _) as [m|[] [m|[[[|st l']|]]]]; reflexivity.
  - intros net cityName s.
    unfold FlightTracker.fetchFlights, FlightTracker.attempt.
    destruct (FlightTracker.member _) as [c|]; simpl; [|done].
    destruct (opensky net _) as [m|[] [m|[[[|st l']|]]]]; reflexivity.
Qed.

(** *** The location resolver *)

Import GlobalFlightTracker.











(** *** Outcomes of a fetch *)

Lemma rateLimited_is_not_noFlights place :
  rateLimited ≠ noFlights place ∧ rateLimited ≠ FlightTracker.noFlights place.
Proof. split; discriminate. Qed.

Lemma thrown_message_nonempty message : or_string message fallback ≠ EmptyString.
Proof. by destruct message. Qed.

(** C8. In both trackers, [fetchFlights] ends with the loading flag
    cleared whatever happens, and its message is decided by the outcome:
    the guidance message when the location is not found; the rate-limit
    message when the provider's response has an error status; the "no
    flights detected" message, different from the former, when the
    response is read and carries no state vector (before any filtering);
    the text of the error, or the default one, when [fetch] rejects or
    the body cannot be read; no message, and the normalised list, when the
    response carries state vectors.  It is a total function: no error
    leaves it. *)
Theorem fetch_reports_every_outcome_and_clears_loading :
  (∀ net searchTerm s,
     loading (fst (fetchFlights net searchTerm s)) = false ∧
     match snd (searchAirport net searchTerm) with
     | None => error (fst (fetchFlights net searchTerm s)) = notFound searchTerm
     | Some l =>
         match opensky net (boundingBox (loc_lat l) (loc_lon l) (searchRadius s)) with
         | Rejected message =>
             error (fst (fetchFlights net searchTerm s)) = or_string message fallback
         | Response false _ =>
             error (fst (fetchFlights net searchTerm s)) = rateLimited
         | Response true (inl message) =>
             error (fst (fetchFlights net searchTerm s)) = or_string message fallback
         | Response true (inr data) =>
             match states data with
             | None | Some [] =>
                 error (fst (fetchFlights net searchTerm s)) = noFlights (name l)
             | Some (state :: rest) =>
                 error (fst (fetchFlights net searchTerm s)) = EmptyString ∧
                 flights (fst (fetchFlights net searchTerm s)) =
                 formattedFlights (state :: rest)
             end
         end
     end) ∧
  (∀ net cityName s,
     FlightTracker.loading (fst (FlightTracker.fetchFlights net cityName s)) = false ∧
     match FlightTracker.member (trim (toLowerCase cityName)) with
     | None =>
         FlightTracker.error (fst (FlightTracker.fetchFlights net cityName s)) =
         FlightTracker.cityNotFound cityName
     | Some c =>
         match opensky net (boundingBox (FlightTracker.lat c) (FlightTracker.lon c)
                                        (FlightTracker.radius c)) with
         | Rejected message =>
             FlightTracker.error (fst (FlightTracker.fetchFlights net cityName s)) =
             or_string message fallback
         | Response false _ =>
             FlightTracker.error (fst (FlightTracker.fetchFlights net cityName s)) =
             rateLimited
         | Response true (inl message) =>
             FlightTracker.error (fst (FlightTracker.fetchFlights net cityName s)) =
             or_string message fallback
         | Response true (inr data) =>
             match states data with
             | None | Some [] =>
                 FlightTracker.error (fst (FlightTracker.fetchFlights net cityName s)) =
                 FlightTracker.noFlights cityName
             | Some (state :: rest) =>
                 FlightTracker.error (fst (FlightTracker.fetchFlights net cityName s)) =
                 EmptyString ∧
                 FlightTracker.flights (fst (FlightTracker.fetchFlights net cityName s)) =
                 formattedFlights (state :: rest)
             end
         end
     end) ∧
  (∀ place, rateLimited ≠ noFlights place ∧ rateLimited ≠ FlightTracker.noFlights place) ∧
  (∀ message, or_string message fallback ≠ EmptyString) ∧
  rateLimited ≠ EmptyString ∧
  (∀ text, notFound text ≠ EmptyString ∧ noFlights text ≠ EmptyString ∧
           FlightTracker.cityNotFound text ≠ EmptyString ∧
           FlightTracker.noFlights text ≠ EmptyString).
Proof.
  split; [|split; [|split; [|split; [|split]]]].
  - intros net searchTerm s. unfold fetchFlights, attempt, boundingBox.
    destruct (searchAirport net searchTerm) as [sent [l|]]; simpl; [|done].
    destruct (opensky net _) as [m|[] [m|[[[|st l']|]]]]; simpl; done.
  - intros net cityName s.
    unfold FlightTracker.fetchFlights, FlightTracker.attempt, boundingBox.
    destruct (FlightTracker.member _) as [c|]; simpl; [|done].
    destruct (opensky net _) as [m|[] [m|[[[|st l']|]]]]; simpl; done.
  - exact rateLimited_is_not_noFlights.
  - exact thrown_message_nonempty.
  - discriminate.
  - intros text. repeat split; discriminate.
Qed.

(** *** The heading handed to the map view *)

Lemma or_zero_not_NaN n : or_number n (Finite 0) ≠ NaN.
Proof. unfold or_number. destruct n; simpl; try done. by destruct (Qeq_bool q 0). Qed.

Lemma toMap_heading_not_NaN f : FlightMap.heading (toMap f) ≠ NaN.
Proof. apply or_zero_not_NaN. Qed.

(** C10. The flights handed to the map view carry a heading that is never
    NaN: [parseFloat(f.heading) || 0] is 0 whenever the heading string
    does not parse as a number, as for the "N/A" of a missing heading, and
    is the parsed number or 0 otherwise. *)
Theorem map_heading_is_never_NaN :
  (∀ f, FlightMap.heading (toMap f) ≠ NaN) ∧
  (∀ f, parseFloat (heading f) = NaN → FlightMap.heading (toMap f) = Finite 0) ∧
  (∀ f, FlightMap.heading (toMap f) = parseFloat (heading f) ∨
        FlightMap.heading (toMap f) = Finite 0) ∧
  parseFloat "N/A" = NaN ∧
  (∀ index state,
     state10 state = None →
     heading (format index state) = "N/A" ∧
     FlightMap.heading (toMap (format index state)) = Finite 0) ∧
  (∀ s shown flight,
     mapFlights s = Some shown → flight ∈ shown → FlightMap.heading flight ≠ NaN) ∧
  (∀ s shown flight,
     FlightTracker.mapFlights s = Some shown → flight ∈ shown →
     FlightMap.heading flight ≠ NaN).
Proof.
  split; [exact toMap_heading_not_NaN|]. split; [|split; [|split; [|split; [|split]]]].
  - intros f H. simpl. by rewrite H.
  - intros f. simpl. unfold or_number. destruct (truthy _); auto.
  - reflexivity.
  - intros index state H. simpl. by rewrite H.
  - intros s shown flight. unfold mapFlights. destruct (_ && _); [|done].
    intros [= <-] Hin. apply list_elem_of_fmap in Hin as (f & -> & _).
    apply toMap_heading_not_NaN.
  - intros s shown flight. unfold FlightTracker.mapFlights. destruct (_ && _); [|done].
    intros [= <-] Hin. apply list_elem_of_fmap in Hin as (f & -> & _).
    apply toMap_heading_not_NaN.
Qed.

(** *** The theorems at work on the spec's scenario *)

Definition kennedy : Place :=
  {| Net.lat := "40.6413"; Net.lon := "-73.7781";
     display_name := "John F. Kennedy International Airport, Queens, New York" |}.

Definition grounded : StateVector :=
  {| state0 := Some "a0b1c2"; state1 := Some "DAL42   "; state2 := Some "United States";
     state5 := Some (Finite (-73.78)); state6 := Some (Finite 40.64);
     state7 := None; state8 := true;
     state9 := Some (Finite 0); state10 := None |}.

Definition airborne : StateVector :=
  {| state0 := None; state1 := None; state2 := Some "United States";
     state5 := Some (Finite (-73.5)); state6 := Some (Finite 40.7);
     state7 := Some (Finite 3048.6); state8 := false;
     state9 := Some (Finite 100); state10 := None |}.

(** The geocoder knows the airport; the provider sees two aircraft. *)
Definition newYork : Network :=
  {| nominatim := λ q,
       if String.eqb q "JFK airport" then Response true (inr [kennedy])
       else Response true (inr []);
     opensky := λ _, Response true (inr {| states := Some [grounded; airborne] |}) |}.

Definition idle : State :=
  {| searchQuery := "JFK"; flights := []; loading := false; error := EmptyString;
     searchedLocation := EmptyString; currentCoords := (Finite 0, Finite 0);
     searchRadius := Finite 0.5; showMap := true |}.

Example scenario_one_flight_displayed :
  flights (fst (fetchFlights newYork "JFK" idle)) = [format 1 airborne] ∧
  id (format 1 airborne) = "flight-1" ∧
  callsign (format 1 airborne) = "N/A" ∧
  altitude (format 1 airborne) = "3049 m" ∧
  velocity (format 1 airborne) = "360 km/h" ∧
  heading (format 1 airborne) = "N/A" ∧
  searchedLocation (fst (fetchFlights newYork "JFK" idle))
    = "John F. Kennedy International Airport".
Proof. repeat split; reflexivity. Qed.

Lemma grounded_flights_are_excluded_witness :
  [grounded; airborne] !! 0%nat = Some grounded ∧ state8 grounded = true ∧
  format 0 grounded ∉ formattedFlights [grounded; airborne].
Proof.
  split; [reflexivity|]. split; [reflexivity|].
  exact (proj1 (proj2 grounded_flights_are_excluded)
           [grounded; airborne] 0%nat grounded eq_refl eq_refl).
Defined.

Lemma map_heading_is_never_NaN_witness :
  parseFloat (heading (format 1 airborne)) = NaN ∧
  FlightMap.heading (toMap (format 1 airborne)) = Finite 0.
Proof.
  split; [reflexivity|].
  exact (proj1 (proj2 map_heading_is_never_NaN) (format 1 airborne) eq_refl).
Defined.

End Fetching.

(* ===================================================================== *)
(** ** Further properties of the map reconciler *)
(* ===================================================================== *)

Module Tracks.
Import JS FlightMap Reconciler.

Local Open Scope nat_scope.
Local Open Scope list_scope.

(** No two consecutive points of a track are the same position. *)
Fixpoint spaced (t : list LatLng) : Prop :=
  match t with
  | p :: (q :: _) as rest => differs p q = true ∧ spaced rest
  | _ => True
  end.

(** A position that [!==] does not tell from itself: no coordinate is NaN. *)
Definition comparable (p : LatLng) : Prop := differs p p = false.

(** What the callback leaves of the flight it ran on: the marker stands at
    the position of the flight under an icon turned to its heading, the
    overlay draws the whole track, and the track ends at the position. *)
Record settled (flight : Flight) (d : FlightMarkerData) : Prop := {
  settled_latlng : marker_latlng (marker d) = position flight;
  settled_icon : marker_icon (marker d) = createPlaneIcon (heading flight);
  settled_overlay : ∀ p, polyline d = Some p → polyline_latlngs p = track d;
  settled_track : comparable (position flight) → moved (track d) (position flight) = false
}.

(** What holds of every tracked flight of a mounted component, besides
    [invariant]. *)
Record drawn (d : FlightMarkerData) : Prop := {
  drawn_overlay : ∀ p, polyline d = Some p → polyline_latlngs p = track d;
  drawn_spaced : spaced (track d)
}.

Lemma spaced_snoc t p :
  spaced t → (∀ q, last t = Some q → differs q p = true) → spaced (t ++ [p]).
Proof.
  induction t as [|a t IH]; [done|]. destruct t as [|b t].
  - intros _ H. simpl. split; [by apply H|done].
  - intros [Hab Hs] H. change ((a :: b :: t) ++ [p]) with (a :: (b :: t) ++ [p]).
    change (spaced (a :: (b :: t) ++ [p]))
      with (differs a b = true ∧ spaced ((b :: t) ++ [p])).
    split; [done|]. apply IH; [done|]. intros q Hq. apply H.
    by rewrite last_cons_cons.
Qed.

Lemma spaced_push t p : spaced t → spaced (push t p).
Proof.
  intros H. unfold push, moved. destruct (last t) as [q|] eqn:Hq.
  - destruct (differs q p) eqn:Hd; [|done]. apply spaced_snoc; [done|].
    intros q' Hq'. congruence.
  - apply last_None in Hq. by subst.
Qed.

Lemma moved_push t p : comparable p → moved (push t p) p = false.
Proof.
  intros Hp. unfold push. destruct (moved t p) eqn:Hm; [|done].
  unfold moved. by rewrite last_snoc.
Qed.

(** The entry the callback writes for its flight. *)
Lemma upsert_entry r flight d' :
  is_Some (mapRef r) →
  flightMarkersRef (upsert r flight) !! id flight = Some d' →
  settled flight d' ∧
  match flightMarkersRef r !! id flight with
  | Some d =>
      track d' = push (track d) (position flight) ∧
      marker_id (marker d') = marker_id (marker d) ∧
      marker_popup (marker d') = marker_popup (marker d) ∧
      (∀ p, polyline d = Some p →
            ∃ p', polyline d' = Some p' ∧ polyline_id p' = polyline_id p)
  | None =>
      track d' = [position flight] ∧ polyline d' = None ∧
      marker_id (marker d') = S (lastId r) ∧
      marker_popup (marker d') =
        {| popup_callsign := callsign flight; popup_country := country flight;
           popup_altitude := altitude flight; popup_velocity := velocity flight;
           popup_heading := heading flight |}
  end.
Proof.
  intros [m0 Hm0]. upsert_cases r flight; try done.
  all: rewrite lookup_insert_eq; intros [= <-]; simpl.
  all: split; [split; simpl; try done; try (by intros ? [= <-]);
               try (intros; by apply moved_push)|].
  all: try (repeat split; try done; intros ? [= <-]; eauto; done).
  all: repeat split; done.
Qed.

Lemma upsert_is_Some r flight :
  is_Some (mapRef r) → is_Some (flightMarkersRef (upsert r flight) !! id flight).
Proof.
  intros H. apply elem_of_dom. rewrite upsert_dom; [|done]. set_solver.
Qed.

Lemma push_prefix t p : t `prefix_of` push t p.
Proof. unfold push. destruct (moved t p); [by apply prefix_app_r|done]. Qed.

(** *** What a pass keeps of a flight it goes on tracking *)

(** Through the loop of [forEach], a tracked flight keeps its marker, the
    popup bound to it and its overlay, and its track only grows at the
    end. *)
Lemma upserted_kept l r i d :
  is_Some (mapRef r) → flightMarkersRef r !! i = Some d →
  ∃ d', flightMarkersRef (fold_left upsert l r) !! i = Some d' ∧
        marker_id (marker d') = marker_id (marker d) ∧
        marker_popup (marker d') = marker_popup (marker d) ∧
        track d `prefix_of` track d' ∧
        (∀ p, polyline d = Some p →
              ∃ p', polyline d' = Some p' ∧ polyline_id p' = polyline_id p).
Proof.
  revert r d. induction l as [|a l IH]; intros r d Hm Hd; cbn [fold_left].
  - exists d. repeat split; eauto.
  - destruct (decide (id a = i)) as [<-|Hne].
    + destruct (upsert_is_Some r a Hm) as [d1 Hd1].
      destruct (upsert_entry _ _ _ Hm Hd1) as [_ H]. rewrite Hd in H.
      destruct H as (Ht & Hid & Hpop & Hpoly).
      destruct (IH _ _ (upsert_mapRef _ a Hm) Hd1) as (d' & Hd' & Hid' & Hpop' & Ht' & Hpoly').
      exists d'. split; [done|]. split; [congruence|]. split; [congruence|]. split.
      * etrans; [|done]. rewrite Ht. apply push_prefix.
      * intros p Hp. destruct (Hpoly _ Hp) as (p1 & Hp1 & Hid1).
        destruct (Hpoly' _ Hp1) as (p' & Hp' & Hidp). exists p'. split; [done|congruence].
    + apply IH; [by apply upsert_mapRef|]. by rewrite upsert_lookup_ne.
Qed.

(** After the loop, a flight of the array is as the last callback that ran
    on its identifier left it. *)
Lemma upserted_settled l r i flight :
  is_Some (mapRef r) → last (carrying i l) = Some flight →
  ∃ d', flightMarkersRef (fold_left upsert l r) !! i = Some d' ∧ settled flight d'.
Proof.
  revert r. induction l as [|a l IH]; intros r Hm; [done|].
  unfold carrying. rewrite filter_cons. fold (carrying i l). cbn [fold_left].
  case_decide as Ha.
  - destruct (carrying i l) as [|b c] eqn:Hc.
    + intros [= <-]. destruct (upsert_is_Some r a Hm) as [d1 Hd1].
      exists d1. rewrite <- Ha. split.
      * rewrite upserted_lookup_notin; [done|]. rewrite Ha. by apply carrying_nil.
      * by apply (upsert_entry r a d1 Hm).
    + rewrite last_cons_cons. intros H. apply IH; [by apply upsert_mapRef|done].
  - intros H. apply IH; [by apply upsert_mapRef|done].
Qed.

Lemma carrying_elem i l flight : last (carrying i l) = Some flight → i ∈ id <$> l.
Proof.
  intros H. apply last_Some_elem_of in H. apply list_elem_of_filter in H as [<- H].
  by apply list_elem_of_fmap_2.
Qed.

Lemma during_nil_kept flights r i d :
  flightMarkersRef r !! i = Some d → i ∈ id <$> flights →
  flightMarkersRef (during [] flights r) !! i = Some d.
Proof. intros Hd Hin. rewrite during_nil_lookup. by case_decide. Qed.

Lemma during_nil_mapRef flights r : is_Some (mapRef r) → is_Some (mapRef (during [] flights r)).
Proof.
  unfold during. cbn [fold_left]. generalize (keys (flightMarkersRef r)).
  intros l. revert r. induction l as [|k l IH]; intros r H; cbn [fold_left]; [done|].
  by apply IH, evict_mapRef.
Qed.

Lemma update_upserted flights r :
  is_Some (mapRef r) →
  updateMapFlights flights r = fold_left upsert flights (during [] flights r).
Proof. intros H. by rewrite update_during. Qed.

(** When every callback of the pass returns, a flight that the pass goes
    on tracking keeps its marker object, its popup and its overlay, and the
    old track is a prefix of the new one. *)
Lemma kept_flight
    (r : Refs) (flights : list Flight) (i : string) (d : FlightMarkerData)
    (flight : Flight) :
  reachable r → flightMarkersRef r !! i = Some d →
  last (carrying i flights) = Some flight →
  ∃ d', flightMarkersRef (updateMapFlights flights r) !! i = Some d' ∧
        marker_id (marker d') = marker_id (marker d) ∧
        marker_popup (marker d') = marker_popup (marker d) ∧
        marker_latlng (marker d') = position flight ∧
        marker_icon (marker d') = createPlaneIcon (heading flight) ∧
        track d `prefix_of` track d' ∧
        (∀ p, polyline d = Some p →
              ∃ p', polyline d' = Some p' ∧ polyline_id p' = polyline_id p).
Proof.
  intros Hr Hd Hlast. pose proof (reachable_invariant _ Hr) as [Hm _ _ _ _].
  rewrite update_upserted; [|done].
  pose proof (during_nil_mapRef flights r Hm) as Hm0.
  pose proof (during_nil_kept flights r i d Hd (carrying_elem _ _ _ Hlast)) as Hd0.
  destruct (upserted_kept flights _ _ _ Hm0 Hd0) as (d' & Hd' & Hid & Hpop & Ht & Hpoly).
  destruct (upserted_settled flights _ _ _ Hm0 Hlast) as (d'' & Hd'' & [Hll Hic _ _]).
  assert (d'' = d') as -> by congruence.
  exists d'. repeat split; done.
Qed.

(** *** Tracks and overlays of a mounted component *)

Definition all_drawn (r : Refs) : Prop :=
  ∀ i d, flightMarkersRef r !! i = Some d → drawn d.

Lemma evict_drawn c r i : all_drawn r → all_drawn (evict c r i).
Proof.
  intros H j d. rewrite evict_lookup. case_decide; [done|]. apply H.
Qed.

Lemma evicted_drawn c l r : all_drawn r → all_drawn (fold_left (evict c) l r).
Proof.
  revert r. induction l as [|k l IH]; intros r H; cbn [fold_left]; [done|].
  by apply IH, evict_drawn.
Qed.

Lemma upsert_drawn r flight :
  is_Some (mapRef r) → all_drawn r → all_drawn (upsert r flight).
Proof.
  intros Hm H j d'. destruct (decide (id flight = j)) as [<-|Hne].
  - intros Hd'. destruct (upsert_entry _ _ _ Hm Hd') as [[_ _ Hov _] Hold].
    split; [done|]. destruct (flightMarkersRef r !! id flight) as [d|] eqn:Hd.
    + destruct Hold as (-> & _). apply spaced_push. by destruct (H _ _ Hd).
    + by destruct Hold as (-> & _).
  - rewrite upsert_lookup_ne; [|done]. apply H.
Qed.

Lemma upserted_drawn l r :
  is_Some (mapRef r) → all_drawn r → all_drawn (fold_left upsert l r).
Proof.
  revert r. induction l as [|a l IH]; intros r Hm H; cbn [fold_left]; [done|].
  apply IH; [by apply upsert_mapRef|by apply upsert_drawn].
Qed.

Lemma reachable_drawn r : reachable r → all_drawn r.
Proof.
  induction 1 as [n c|r flights Hr IH].
  - intros i d. unfold initMap, mounted. simpl. by rewrite lookup_empty.
  - pose proof (reachable_invariant _ Hr) as [Hm _ _ _ _].
    rewrite update_upserted; [|done].
    apply upserted_drawn; [by apply during_nil_mapRef|].
    unfold during. cbn [fold_left]. by apply evicted_drawn.
Qed.

Lemma spaced_inv t1 p q t2 : spaced (t1 ++ p :: q :: t2) → differs p q = true.
Proof.
  induction t1 as [|a t1 IH]; [by intros [? _]|].
  destruct t1 as [|b t1]; simpl; intros [_ H]; by apply IH.
Qed.

(** X2. In a mounted map view, the path overlay of a tracked flight is on
    the map and draws exactly the points of its track, in order. *)
Theorem overlay_draws_the_whole_track
    (r : Refs) (i : string) (d : FlightMarkerData) (p : Polyline) :
  reachable r → flightMarkersRef r !! i = Some d → polyline d = Some p →
  polyline_latlngs p = track d ∧ polyline_id p ∈ shown r.
Proof.
  intros Hr Hd Hp. split.
  - by destruct (reachable_drawn _ Hr _ _ Hd) as [H _]; apply H.
  - destruct (reachable_invariant _ Hr) as [_ Hst _ _ _].
    apply (Hst i d); [done|]. unfold handles. rewrite Hp. set_solver.
Qed.

(** X3. In a mounted map view, a track is never empty and never holds the
    same position twice in a row: any two consecutive points differ under
    [!==] on a coordinate, so no segment of an overlay has length zero. *)
Theorem consecutive_track_points_differ
    (r : Refs) (i : string) (d : FlightMarkerData) :
  reachable r → flightMarkersRef r !! i = Some d →
  track d ≠ [] ∧
  ∀ before p q after, track d = before ++ p :: q :: after → differs p q = true.
Proof.
  intros Hr Hd. split.
  - by apply (inv_track _ (reachable_invariant _ Hr) i d).
  - intros before p q after Ht. apply (spaced_inv before p q after).
    rewrite <- Ht. by destruct (reachable_drawn _ Hr _ _ Hd).
Qed.

(** X4. In a mounted map view, the marker of every tracked flight is on the
    map, and no Leaflet object (marker or overlay) belongs to two tracked
    flights. *)
Theorem markers_are_on_the_map_and_unshared
    (r : Refs) (i : string) (d : FlightMarkerData) :
  reachable r → flightMarkersRef r !! i = Some d →
  marker_id (marker d) ∈ shown r ∧
  ∀ j e h, flightMarkersRef r !! j = Some e → h ∈ handles d → h ∈ handles e → j = i.
Proof.
  intros Hr Hd. destruct (reachable_invariant _ Hr) as [_ Hst Hown _ _]. split.
  - apply (Hst i d); [done|]. unfold handles. set_solver.
  - intros j e h He Hhd Hhe. by apply (Hown j i e d h).
Qed.

(** *** What a pass does to the layers of the map *)

Lemma evicted_shown_keep c l r h :
  h ∈ shown r →
  (∀ i d, flightMarkersRef r !! i = Some d → i ∉ c → h ∉ handles d) →
  h ∈ shown (fold_left (evict c) l r).
Proof.
  revert r. induction l as [|k l IH]; intros r Hh Hfree; cbn [fold_left]; [done|].
  apply IH.
  - apply evict_shown. split; [done|].
    destruct (decide (k ∈ c)) as [|Hk]; [by left|right]. intros d Hd. by apply (Hfree k).
  - intros i d. rewrite evict_lookup. case_decide; [done|]. apply Hfree.
Qed.

Lemma upserted_shown_mono l r : shown r ⊆ shown (fold_left upsert l r).
Proof.
  revert r. induction l as [|a l IH]; intros r; cbn [fold_left]; [done|].
  etrans; [apply upsert_shown_mono|apply IH].
Qed.

(** X5. A pass takes off the map only objects of flights it evicts, and
    puts on it only objects stamped during the pass: a layer that belongs to
    no evicted flight (the tile layer, the marker of the city, the objects
    of the flights still tracked) stays, and a layer on the map after the
    pass was there before or is newly stamped. *)
Theorem pass_touches_only_flight_layers (r : Refs) (flights : list Flight) (h : nat) :
  (h ∈ shown r →
   (∀ i d, flightMarkersRef r !! i = Some d → i ∉ id <$> flights → h ∉ handles d) →
   h ∈ shown (updateMapFlights flights r)) ∧
  (h ∈ shown (updateMapFlights flights r) → h ∈ shown r ∨ lastId r < h).
Proof.
  unfold updateMapFlights. destruct (mapRef r) as [m|] eqn:Hm; [|by auto].
  split.
  - intros Hh Hfree. apply upserted_shown_mono, evicted_shown_keep; [done|].
    intros i d Hd Hi. apply (Hfree i d Hd). by rewrite elem_of_list_to_set in Hi.
  - intros Hh. apply upserted_shown in Hh as [Hh|Hh].
    + left. by apply evicted_shown_subseteq in Hh.
    + right. by rewrite evicted_lastId in Hh.
Qed.

(** *** A flight seen for the first time, or seen again after an absence *)

Lemma update_lastId flights r : lastId r ≤ lastId (updateMapFlights flights r).
Proof.
  unfold updateMapFlights. destruct (mapRef r); [|done].
  etrans; [|apply upserted_lastId]. by rewrite evicted_lastId.
Qed.

Lemma update_new r flights i flight :
  invariant r → flightMarkersRef r !! i = None → carrying i flights = [flight] →
  ∃ d', flightMarkersRef (updateMapFlights flights r) !! i = Some d' ∧
        track d' = [position flight] ∧ polyline d' = None ∧
        lastId r < marker_id (marker d') ∧
        marker_latlng (marker d') = position flight ∧
        marker_popup (marker d') =
          {| popup_callsign := callsign flight; popup_country := country flight;
             popup_altitude := altitude flight; popup_velocity := velocity flight;
             popup_heading := heading flight |}.
Proof.
  intros Hinv Hd Hone.
  destruct (carrying_one _ _ _ Hone) as (before & after & Hl & Hid & Hb & Ha).
  rewrite update_during; [|by destruct Hinv].
  assert (during flights flights r =
          fold_left upsert (flight :: after) (during before flights r)) as ->.
  { rewrite <- during_app. by rewrite <- Hl. }
  cbn [fold_left]. rewrite upserted_lookup_notin; [|done].
  pose proof (inv_map _ (during_invariant before flights r Hinv)) as Hmid.
  assert (flightMarkersRef (during before flights r) !! id flight = None) as Hnone.
  { rewrite Hid. rewrite during_lookup_notin; [|done]. rewrite during_nil_lookup.
    by case_decide. }
  destruct (upsert_is_Some _ flight Hmid) as [d' Hd'].
  destruct (upsert_entry _ _ _ Hmid Hd') as [[Hll _ _ _] Hnew]. rewrite Hnone in Hnew.
  destruct Hnew as (Ht & Hp & Hmk & Hpop).
  exists d'. rewrite <- Hid. repeat split; try done.
  rewrite Hmk. unfold during. apply Nat.lt_succ_r.
  etrans; [|apply upserted_lastId]. by rewrite evicted_lastId.
Qed.

(** When every callback of the pass returns, a flight first seen by the
    pass gets a newly stamped marker, a track of one point and no
    overlay. *)
Lemma first_sighting
    (r : Refs) (flights : list Flight) (i : string) (flight : Flight) :
  reachable r → flightMarkersRef r !! i = None → carrying i flights = [flight] →
  ∃ d', flightMarkersRef (updateMapFlights flights r) !! i = Some d' ∧
        track d' = [position flight] ∧ polyline d' = None ∧
        lastId r < marker_id (marker d') ∧
        marker_id (marker d') ∈ shown (updateMapFlights flights r) ∧
        marker_latlng (marker d') = position flight ∧
        marker_popup (marker d') =
          {| popup_callsign := callsign flight; popup_country := country flight;
             popup_altitude := altitude flight; popup_velocity := velocity flight;
             popup_heading := heading flight |}.
Proof.
  intros Hr Hd Hone. pose proof (reachable_invariant _ Hr) as Hinv.
  destruct (update_new _ _ _ _ Hinv Hd Hone) as (d' & Hd' & Ht & Hp & Hlt & Hll & Hpop).
  exists d'. repeat split; try done.
  destruct (update_invariant flights r Hinv) as [_ Hst _ _ _].
  apply (Hst i d'); [done|]. unfold handles. set_solver.
Qed.

(** When every callback of both passes returns, a flight that leaves the
    array and comes back is tracked anew. *)
Lemma returning_flight
    (r : Refs) (absent back : list Flight) (i : string) (d : FlightMarkerData)
    (flight : Flight) :
  reachable r → flightMarkersRef r !! i = Some d →
  i ∉ id <$> absent → carrying i back = [flight] →
  ∃ d', flightMarkersRef (updateMapFlights back (updateMapFlights absent r)) !! i
        = Some d' ∧
        track d' = [position flight] ∧ polyline d' = None ∧
        marker_id (marker d') ≠ marker_id (marker d).
Proof.
  intros Hr Hd Hi Hone. pose proof (reachable_invariant _ Hr) as Hinv.
  pose proof (update_invariant absent r Hinv) as Hinv1.
  assert (flightMarkersRef (updateMapFlights absent r) !! i = None) as Hnone.
  { rewrite update_during; [|by destruct Hinv].
    rewrite during_lookup_notin; [|done]. rewrite during_nil_lookup. by case_decide. }
  destruct (update_new _ _ _ _ Hinv1 Hnone Hone) as (d' & Hd' & Ht & Hp & Hlt & _).
  exists d'. repeat split; try done.
  destruct Hinv as [_ Hst _ _ _].
  destruct (Hst i d (marker_id (marker d)) Hd) as [Hle _]; [unfold handles; set_solver|].
  pose proof (update_lastId absent r). lia.
Qed.

(** *** A pass over an unchanged array *)

Lemma update_dom flights r :
  is_Some (mapRef r) →
  dom (flightMarkersRef (updateMapFlights flights r)) = list_to_set (id <$> flights).
Proof.
  intros Hm. rewrite update_upserted; [|done].
  rewrite upserted_dom; [|by apply during_nil_mapRef].
  apply set_eq. intros j. rewrite elem_of_union, elem_of_dom.
  rewrite during_nil_lookup, elem_of_list_to_set.
  case_decide; [tauto|]. split; [|tauto]. intros [?|[? ?]]; done.
Qed.

Lemma evicted_fixed c l r : (∀ k, k ∈ l → k ∈ c) → fold_left (evict c) l r = r.
Proof.
  induction l as [|k l IH]; intros H; cbn [fold_left]; [done|].
  assert (evict c r k = r) as ->.
  { unfold evict. case_decide as Hk; [done|]. exfalso. apply Hk, H. by left. }
  apply IH. intros j Hj. apply H. by right.
Qed.

Lemma upsert_fixed r flight d :
  invariant r → flightMarkersRef r !! id flight = Some d →
  settled flight d → comparable (position flight) → upsert r flight = r.
Proof.
  intros Hinv Hd [Hll Hic Hov Hmv] Hcmp. specialize (Hmv Hcmp).
  pose proof (inv_overlay _ Hinv _ _ Hd) as Ho. unfold overlay_iff_two in Ho.
  destruct Hinv as [[m Hm] _ _ _ _].
  unfold upsert. rewrite Hd. fold (position flight). unfold push. rewrite Hmv.
  assert ({| marker_id := marker_id (marker d); marker_latlng := position flight;
             marker_icon := createPlaneIcon (heading flight);
             marker_popup := marker_popup (marker d) |} = marker d) as ->.
  { rewrite <- Hll, <- Hic. by destruct (marker d). }
  destruct (polyline d) as [p|] eqn:Hp.
  - assert ({| polyline_id := polyline_id p; polyline_latlngs := track d |} = p) as ->.
    { rewrite <- (Hov p eq_refl). by destruct p. }
    assert ({| marker := marker d; polyline := Some p; track := track d |} = d) as ->.
    { rewrite <- Hp. by destruct d. }
    rewrite insert_id; [|done]. by destruct r.
  - rewrite Hm.
    assert ((1 <? length (track d)) = false) as ->.
    { apply Nat.ltb_ge. destruct (decide (2 ≤ length (track d))) as [Hge|]; [|lia].
      apply Ho in Hge. by destruct Hge. }
    assert ({| marker := marker d; polyline := None; track := track d |} = d) as ->.
    { rewrite <- Hp. by destruct d. }
    rewrite insert_id; [|done]. by destruct r.
Qed.

Lemma upserted_fixed l r :
  (∀ flight, flight ∈ l → upsert r flight = r) → fold_left upsert l r = r.
Proof.
  induction l as [|a l IH]; intros H; cbn [fold_left]; [done|].
  rewrite (H a); [|by left]. apply IH. intros f Hf. apply H. by right.
Qed.

Lemma carrying_nil_iff i l : i ∉ id <$> l → carrying i l = [].
Proof.
  unfold carrying. induction l as [|a l IH]; [done|].
  rewrite fmap_cons. intros [Hne Hl]%not_elem_of_cons.
  rewrite filter_cons. case_decide; [congruence|by apply IH].
Qed.

Lemma nodup_carrying l flight :
  NoDup (id <$> l) → flight ∈ l → carrying (id flight) l = [flight].
Proof.
  unfold carrying. induction l as [|a l IH]; intros Hnd Hin; [by apply elem_of_nil in Hin|].
  rewrite fmap_cons in Hnd. apply NoDup_cons in Hnd as [Ha Hnd].
  rewrite filter_cons. apply elem_of_cons in Hin as [->|Hin].
  - case_decide; [|done]. f_equal.
    apply (carrying_nil_iff (id a) l). done.
  - case_decide as Heq; [|by apply IH].
    exfalso. apply Ha. rewrite Heq. by apply list_elem_of_fmap_2.
Qed.

(** X8. Running a pass again on the array it has just run on changes
    nothing at all (no marker, track, overlay or layer), when no two flights
    of the array carry the same identifier and no coordinate is NaN.  The
    effect runs again on every render of the parent, which builds a new
    array of the same flights each time. *)
Theorem pass_on_unchanged_array_changes_nothing (r : Refs) (flights : list Flight) :
  reachable r → NoDup (id <$> flights) →
  (∀ flight, flight ∈ flights → comparable (position flight)) →
  updateMapFlights flights (updateMapFlights flights r) = updateMapFlights flights r.
Proof.
  intros Hr Hnd Hcmp. pose proof (reachable_invariant _ Hr) as Hinv.
  pose proof (update_invariant flights r Hinv) as Hinv1.
  pose proof (inv_map _ Hinv1) as Hm1.
  rewrite (update_upserted flights (updateMapFlights flights r)); [|done].
  assert (during [] flights (updateMapFlights flights r) = updateMapFlights flights r) as ->.
  { unfold during. cbn [fold_left]. apply evicted_fixed. intros k Hk.
    apply elem_of_keys, elem_of_dom in Hk. rewrite update_dom in Hk; [done|].
    by destruct Hinv. }
  apply upserted_fixed. intros flight Hin.
  assert (last (carrying (id flight) flights) = Some flight) as Hlast
    by (by rewrite nodup_carrying).
  assert (∃ d, flightMarkersRef (updateMapFlights flights r) !! id flight = Some d ∧
               settled flight d) as (d & Hd & Hs).
  { rewrite (update_upserted flights r); [|by destruct Hinv].
    apply upserted_settled; [|done]. apply during_nil_mapRef. by destruct Hinv. }
  apply (upsert_fixed _ _ d); try done. by apply Hcmp.
Qed.

(** When every callback of the pass returns, there are at most as many
    tracked flights after it as the array has elements, and exactly as many
    when no two flights of the array carry the same identifier. *)
Lemma tracked_count (r : Refs) (flights : list Flight) :
  reachable r →
  size (flightMarkersRef (updateMapFlights flights r)) ≤ length flights ∧
  (NoDup (id <$> flights) →
   size (flightMarkersRef (updateMapFlights flights r)) = length flights).
Proof.
  intros Hr. pose proof (reachable_invariant _ Hr) as [Hm _ _ _ _].
  rewrite <- size_dom, update_dom; [|done]. split.
  - rewrite <- (length_fmap id flights). generalize (id <$> flights). intros l.
    induction l as [|a l IH]; [by rewrite list_to_set_nil, size_empty|].
    rewrite list_to_set_cons. simpl.
    etrans; [apply (subseteq_size _ ({[a]} ∪ list_to_set l)); done|].
    rewrite size_union_alt, size_singleton.
    pose proof (subseteq_size (list_to_set l ∖ {[a]}) (list_to_set l : gset string)) as H.
    etrans; [apply Nat.add_le_mono_l, H; set_solver|]. lia.
  - intros Hnd. rewrite size_list_to_set; [|done]. by rewrite length_fmap.
Qed.

(** *** The theorems at work on the small session *)

(** The aircraft of [session1] has moved north. *)
Definition session2 : Refs := updateMapFlights [plane "a" 13.5 77] session1.

Definition overlay2 : Polyline :=
  {| polyline_id := 4;
     polyline_latlngs := [(Finite 13, Finite 77); (Finite 13.5, Finite 77)] |}.

Definition entry2 : FlightMarkerData :=
  {| marker :=
       {| marker_id := 3;
          marker_latlng := (Finite 13.5, Finite 77);
          marker_icon := createPlaneIcon (Finite 90);
          marker_popup := marker_popup (marker entry1) |};
     polyline := Some overlay2;
     track := [(Finite 13, Finite 77); (Finite 13.5, Finite 77)] |}.

Lemma session2_reachable : reachable session2.
Proof. apply reach_update, session1_reachable. Qed.

Lemma session2_entry : flightMarkersRef session2 !! "a" = Some entry2.
Proof. vm_compute. reflexivity. Qed.

Lemma session1_b : flightMarkersRef session1 !! "b" = None.
Proof. vm_compute. reflexivity. Qed.

Lemma a_then_b_distinct : NoDup (id <$> [plane "a" 13.5 77; plane "b" 14 78]).
Proof.
  apply NoDup_cons. split; [|apply NoDup_singleton].
  intros H. apply list_elem_of_singleton in H. discriminate.
Qed.

Lemma a_then_b_comparable flight :
  flight ∈ [plane "a" 13.5 77; plane "b" 14 78] → comparable (position flight).
Proof.
  intros H. apply elem_of_cons in H as [->|H]; [reflexivity|].
  apply list_elem_of_singleton in H as ->. reflexivity.
Qed.

Lemma session1_tile_free (i : string) (d : FlightMarkerData) :
  flightMarkersRef session1 !! i = Some d → i ∉ id <$> [] → 1 ∉ handles d.
Proof.
  intros Hd _. destruct (decide (i = "a")) as [->|Hne].
  - rewrite session1_entry in Hd. injection Hd as <-. unfold handles. simpl.
    intros H. apply list_elem_of_singleton in H. discriminate.
  - assert (i ∈ dom (flightMarkersRef session1)) as Hin by (apply elem_of_dom; by eexists).
    unfold session1 in Hin. rewrite update_dom in Hin; [|by eexists].
    simpl in Hin. set_solver.
Qed.

Lemma session1_tile : 1 ∈ shown session1.
Proof. apply (bool_decide_unpack (1 ∈ shown session1)). vm_compute. exact I. Qed.

Lemma overlay_draws_the_whole_track_witness :
  reachable session2 ∧ flightMarkersRef session2 !! "a" = Some entry2 ∧
  polyline entry2 = Some overlay2 ∧
  polyline_latlngs overlay2 = track entry2 ∧ polyline_id overlay2 ∈ shown session2.
Proof.
  split; [exact session2_reachable|]. split; [exact session2_entry|].
  split; [reflexivity|].
  exact (overlay_draws_the_whole_track session2 "a" entry2 overlay2
           session2_reachable session2_entry eq_refl).
Defined.

Lemma consecutive_track_points_differ_witness :
  reachable session2 ∧ flightMarkersRef session2 !! "a" = Some entry2 ∧
  track entry2 ≠ [] ∧
  ∀ before p q after, track entry2 = before ++ p :: q :: after → differs p q = true.
Proof.
  split; [exact session2_reachable|]. split; [exact session2_entry|].
  exact (consecutive_track_points_differ session2 "a" entry2
           session2_reachable session2_entry).
Defined.

Lemma markers_are_on_the_map_and_unshared_witness :
  reachable session1 ∧ flightMarkersRef session1 !! "a" = Some entry1 ∧
  marker_id (marker entry1) ∈ shown session1.
Proof.
  split; [exact session1_reachable|]. split; [exact session1_entry|].
  exact (proj1 (markers_are_on_the_map_and_unshared session1 "a" entry1
                  session1_reachable session1_entry)).
Defined.

(** The tile layer stays when the only aircraft is evicted. *)
Lemma pass_touches_only_flight_layers_witness :
  1 ∈ shown session1 ∧ 1 ∈ shown (updateMapFlights [] session1).
Proof.
  split; [exact session1_tile|].
  exact (proj1 (pass_touches_only_flight_layers session1 [] 1)
           session1_tile session1_tile_free).
Defined.

Lemma pass_on_unchanged_array_changes_nothing_witness :
  reachable session1 ∧ NoDup (id <$> [plane "a" 13.5 77; plane "b" 14 78]) ∧
  updateMapFlights [plane "a" 13.5 77; plane "b" 14 78]
    (updateMapFlights [plane "a" 13.5 77; plane "b" 14 78] session1)
  = updateMapFlights [plane "a" 13.5 77; plane "b" 14 78] session1.
Proof.
  split; [exact session1_reachable|]. split; [exact a_then_b_distinct|].
  exact (pass_on_unchanged_array_changes_nothing session1
           [plane "a" 13.5 77; plane "b" 14 78]
           session1_reachable a_then_b_distinct a_then_b_comparable).
Defined.

End Tracks.

(* ===================================================================== *)
(** ** Further properties of the flight fetcher *)
(* ===================================================================== *)

Module Display.
Import JS Net Fetcher.

Local Open Scope Z_scope.

(** *** Reading back the digits that were printed *)

(** The value of a decimal numeral read from the left, continued from
    [acc]. *)
Fixpoint horner (d : Decimal.uint) (acc : Z) : Z :=
  match d with
  | Decimal.Nil => acc
  | Decimal.D0 l => horner l (10 * acc + 0)
  | Decimal.D1 l => horner l (10 * acc + 1)
  | Decimal.D2 l => horner l (10 * acc + 2)
  | Decimal.D3 l => horner l (10 * acc + 3)
  | Decimal.D4 l => horner l (10 * acc + 4)
  | Decimal.D5 l => horner l (10 * acc + 5)
  | Decimal.D6 l => horner l (10 * acc + 6)
  | Decimal.D7 l => horner l (10 * acc + 7)
  | Decimal.D8 l => horner l (10 * acc + 8)
  | Decimal.D9 l => horner l (10 * acc + 9)
  end.

Definition not_digit_head (s : string) : Prop :=
  match s with
  | String c _ => digit_of c = None
  | EmptyString => True
  end.

Lemma digits_cons c r acc n k :
  digit_of c = Some k → digits (String c r) acc n = digits r (10 * acc + k) (S n).
Proof. intros H. cbn [digits]. by rewrite H. Qed.

Lemma digits_stop s acc n : not_digit_head s → digits s acc n = (acc, n, s).
Proof. destruct s as [|c r]; [done|]. intros H. cbn [digits]. by rewrite H. Qed.

Lemma append_cons c s r : (String c s ++ r)%string = String c (s ++ r).
Proof. reflexivity. Qed.

Lemma digits_uint d rest acc n :
  not_digit_head rest →
  digits (NilEmpty.string_of_uint d ++ rest) acc n =
  (horner d acc, (n + Decimal.nb_digits d)%nat, rest).
Proof.
  intros Hrest. revert acc n.
  induction d as [|d IH|d IH|d IH|d IH|d IH|d IH|d IH|d IH|d IH|d IH]; intros acc n;
    cbn [NilEmpty.string_of_uint String.append horner Decimal.nb_digits].
  1: { rewrite digits_stop; [|done]. by rewrite Nat.add_0_r. }
  all: rewrite append_cons; erewrite digits_cons; [|reflexivity].
  all: rewrite IH; f_equal; f_equal; lia.
Qed.

Lemma horner_pos d p : horner d (Z.pos p) = Z.pos (Pos.of_uint_acc d p).
Proof.
  revert p.
  induction d as [|d IH|d IH|d IH|d IH|d IH|d IH|d IH|d IH|d IH|d IH]; intros p;
    cbn [horner Pos.of_uint_acc]; [done|..].
  all: rewrite <- IH; f_equal; lia.
Qed.

Lemma horner_zero d : horner d 0 = Z.of_N (Pos.of_uint d).
Proof.
  induction d as [|d IH|d IH|d IH|d IH|d IH|d IH|d IH|d IH|d IH|d IH];
    cbn [horner Pos.of_uint]; [done|exact IH|..].
  all: cbn [Z.of_N]; rewrite <- horner_pos; reflexivity.
Qed.

Lemma numeral_digits d : d ≠ Decimal.Nil → ∃ k, Decimal.nb_digits d = S k.
Proof. destruct d; [done|..]; intros _; by eexists. Qed.

(** A numeral starts with a digit: it is not trimmed, carries no sign and
    is not the word "Infinity". *)
Lemma numeral_head d rest :
  d ≠ Decimal.Nil →
  trimStart (NilEmpty.string_of_uint d ++ rest) = (NilEmpty.string_of_uint d ++ rest)%string ∧
  sign_of (NilEmpty.string_of_uint d ++ rest) =
    (false, (NilEmpty.string_of_uint d ++ rest)%string) ∧
  String.prefix "Infinity" (NilEmpty.string_of_uint d ++ rest) = false ∧
  truthy_string (NilEmpty.string_of_uint d ++ rest) = true.
Proof. destruct d; [done|..]; intros _; repeat split; reflexivity. Qed.

(** The decimal string of a natural number is a numeral of that value. *)
Lemma natural_string z :
  0 ≤ z →
  ∃ d, d ≠ Decimal.Nil ∧ Z_to_string z = NilEmpty.string_of_uint d ∧ horner d 0 = z.
Proof.
  destruct z as [|p|p]; [| |lia]; intros _.
  - exists (Decimal.D0 Decimal.Nil). by repeat split.
  - exists (Pos.to_uint p). pose proof (DecimalPos.Unsigned.to_uint_nonnil p) as Hn.
    split; [done|]. split.
    + unfold Z_to_string. cbn [Z.to_int NilZero.string_of_int].
      unfold NilZero.string_of_uint. by destruct (Pos.to_uint p).
    + by rewrite horner_zero, DecimalPos.Unsigned.of_to.
Qed.

Lemma decimal_degrees d :
  d ≠ Decimal.Nil →
  decimal (NilEmpty.string_of_uint d ++ "Â°") = Some (inject_Z (horner d 0)).
Proof.
  intros Hd. unfold decimal. rewrite digits_uint; [|reflexivity].
  destruct (numeral_digits d Hd) as [k ->]. cbv beta iota zeta.
  cbn [Nat.add]. change (exponent "Â°" - Z.of_nat 0) with 0.
  change (scale (horner d 0) 0) with (inject_Z (horner d 0 * 1)).
  by rewrite Z.mul_1_r.
Qed.

(** [parseFloat] reads back the integer printed in front of the degree
    suffix. *)
Lemma parseFloat_degrees z : parseFloat (Z_to_string z ++ "Â°") = Finite (inject_Z z).
Proof.
  destruct (Z_le_gt_dec 0 z) as [Hz|Hz].
  - destruct (natural_string z Hz) as (d & Hd & -> & <-).
    destruct (numeral_head d "Â°" Hd) as (Ht & Hs & Hp & _).
    unfold parseFloat. rewrite Ht, Hs, Hp. by rewrite decimal_degrees.
  - destruct z as [|p|p]; [lia|lia|].
    destruct (natural_string (Z.pos p)) as (d & Hd & Hstr & Hval); [lia|].
    assert (Z_to_string (Z.neg p) = String "-" (NilEmpty.string_of_uint d)) as ->.
    { rewrite <- Hstr. reflexivity. }
    destruct (numeral_head d "Â°" Hd) as (_ & _ & Hp & _).
    unfold parseFloat. rewrite append_cons. cbn [trimStart].
    change (is_space "-") with false. cbv beta iota. cbn [sign_of].
    rewrite Hp, decimal_degrees; [|done]. by rewrite Hval.
Qed.

(** X11. The heading the map view receives for a record is the heading of
    the provider rounded to the nearest whole degree (a tie going upwards),
    and 0 when the heading is missing: the text with the degree suffix made
    for the list is parsed back to the number it was made from. *)
Theorem map_heading_is_the_rounded_heading (index : nat) (state : StateVector) :
  FlightMap.heading (toMap (format index state)) =
  match state10 state with
  | Some h =>
      match Math_round h with
      | IInt z => Finite (inject_Z z)
      | IInfinity negative => Infinity negative
      | INaN => Finite 0
      end
  | None => Finite 0
  end.
Proof.
  cbn [toMap format heading FlightMap.heading]. unfold rounded.
  destruct (state10 state) as [h|]; [|reflexivity].
  destruct h as [|[]|q]; try reflexivity.
  cbn [truthy Math_round integral_to_string].
  destruct (Qeq_bool q 0) eqn:Hq; cbn [negb].
  - change (parseFloat "N/A") with NaN. cbn [or_number truthy].
    apply Qeq_bool_iff in Hq. do 2 f_equal. symmetry.
    rewrite Hq. reflexivity.
  - rewrite parseFloat_degrees. unfold or_number. cbn [truthy].
    generalize (Qfloor (q + (1 # 2))). intros z.
    destruct (Qeq_bool (inject_Z z) 0) eqn:Hz; cbn [negb]; [|done].
    apply Qeq_bool_iff in Hz. unfold Qeq, inject_Z in Hz. cbn [Qnum Qden] in Hz.
    unfold inject_Z. f_equal. change 0%Q with (0 # 1). f_equal. lia.
Qed.

(** *** Coordinates on their way to the map *)

Lemma decimal_point d t :
  d ≠ Decimal.Nil → is_Some (decimal (NilEmpty.string_of_uint d ++ String "." t)).
Proof.
  intros Hd. unfold decimal. rewrite digits_uint; [|reflexivity].
  destruct (numeral_digits d Hd) as [k ->]. cbv beta iota zeta.
  destruct (digits t (horner d 0) 0) as [[m nf] r2]. cbn [Nat.add]. by eexists.
Qed.

Lemma toFixed4_shape q :
  ∃ d t, d ≠ Decimal.Nil ∧
         toFixed4 (Finite q) =
           ((if is_negative q then "-" else EmptyString) ++
            (NilEmpty.string_of_uint d ++ String "." t))%string.
Proof.
  unfold toFixed4. set (n := Qfloor (Qabs q * 10000 + (1 # 2))).
  assert (0 ≤ n) as Hn.
  { change 0 with (Qfloor 0). apply Qfloor_resp_le.
    pose proof (Qabs_nonneg q) as Ha.
    apply Qle_trans with (Qabs q * 10000 + 0)%Q.
    - rewrite Qplus_0_r. apply Qmult_le_0_compat; [done|]. discriminate.
    - apply Qplus_le_r. discriminate. }
  destruct (natural_string (n / 10000)) as (d & Hd & -> & _);
    [by apply Z.div_pos; lia|].
  exists d, (pad4 (Z_to_string (n mod 10000))). split; [done|reflexivity].
Qed.

Lemma toFixed4_read q :
  truthy_string (toFixed4 (Finite q)) = true ∧ parseFloat (toFixed4 (Finite q)) ≠ NaN.
Proof.
  destruct (toFixed4_shape q) as (d & t & Hd & ->).
  destruct (numeral_head d (String "." t) Hd) as (Ht & Hs & Hp & Htr).
  destruct (decimal_point d t Hd) as [v Hv].
  destruct (is_negative q).
  - split; [reflexivity|]. unfold parseFloat.
    change ("-" ++ (NilEmpty.string_of_uint d ++ String "." t))%string
      with (String "-" (NilEmpty.string_of_uint d ++ String "." t)).
    cbn [trimStart]. change (is_space "-") with false. cbv beta iota. cbn [sign_of].
    by rewrite Hp, Hv.
  - change (EmptyString ++ (NilEmpty.string_of_uint d ++ String "." t))%string
      with (NilEmpty.string_of_uint d ++ String "." t)%string.
    split; [done|]. unfold parseFloat. by rewrite Ht, Hs, Hp, Hv.
Qed.

Lemma coordinate_read (v : option number) :
  parseFloat (or_else (toFixed4 <$> v) "N/A") = NaN ↔ v = None ∨ v = Some NaN.
Proof.
  destruct v as [[|[]|q]|]; cbn [fmap option_fmap option_map or_else].
  - split; [by right|reflexivity].
  - split; [by intros [=]|by intros [[=]|[=]]].
  - split; [by intros [=]|by intros [[=]|[=]]].
  - destruct (toFixed4_read q) as [Ht He]. unfold or_string. rewrite Ht.
    split; [done|by intros [[=]|[=]]].
  - split; [by left|reflexivity].
Qed.

(** X12. A coordinate reaches the map view as NaN exactly when the
    provider's record has none (or the field itself is NaN): every present
    coordinate, zero included, is printed with four decimals and parsed back
    to a number. *)
Theorem coordinate_is_NaN_only_when_missing (index : nat) (state : StateVector) :
  (FlightMap.latitude (toMap (format index state)) = NaN ↔
   state6 state = None ∨ state6 state = Some NaN) ∧
  (FlightMap.longitude (toMap (format index state)) = NaN ↔
   state5 state = None ∨ state5 state = Some NaN).
Proof. split; apply coordinate_read. Qed.

(** *** What the list displays *)

Lemma append_nonempty (a b : string) : b ≠ EmptyString → (a ++ b)%string ≠ EmptyString.
Proof. destruct a; [done|]. intros _. discriminate. Qed.

Lemma or_else_nonempty v d : d ≠ EmptyString → or_else v d ≠ EmptyString.
Proof.
  intros Hd. destruct v as [s|]; [|done]. unfold or_else, or_string.
  by destruct s.
Qed.

Lemma rounded_nonempty v f suffix : suffix ≠ EmptyString → rounded v f suffix ≠ EmptyString.
Proof.
  intros Hs. unfold rounded. destruct v as [n|]; [|done].
  destruct (truthy n); [by apply append_nonempty|done].
Qed.

(** X13. No field of a displayed flight is ever blank: whatever the record
    holds, identifier, callsign, country, position, altitude, velocity and
    heading are non-empty texts; a callsign made of white space only is
    displayed as "N/A". *)
Theorem displayed_fields_are_never_blank (index : nat) (state : StateVector) :
  id (format index state) ≠ EmptyString ∧
  callsign (format index state) ≠ EmptyString ∧
  country (format index state) ≠ EmptyString ∧
  longitude (format index state) ≠ EmptyString ∧
  latitude (format index state) ≠ EmptyString ∧
  altitude (format index state) ≠ EmptyString ∧
  velocity (format index state) ≠ EmptyString ∧
  heading (format index state) ≠ EmptyString ∧
  (∀ s, state1 state = Some s → trim s = EmptyString →
        callsign (format index state) = "N/A").
Proof.
  cbn [format id callsign country longitude latitude altitude velocity heading].
  repeat split; try (apply or_else_nonempty; discriminate);
    try (apply rounded_nonempty; discriminate).
  intros s -> Hs. cbn [fmap option_fmap option_map or_else]. by rewrite Hs.
Qed.

(** *** Identifiers and number of the flights displayed *)

Local Open Scope nat_scope.
Local Open Scope list_scope.

(** The identifier the provider gave, when it gave a non-empty one. *)
Definition provided (state : StateVector) : Prop :=
  ∃ s, state0 state = Some s ∧ s ≠ EmptyString.

Lemma format_id_provided index state s :
  state0 state = Some s → s ≠ EmptyString → id (format index state) = s.
Proof. intros H Hs. cbn [format id]. rewrite H. cbn [or_else]. by destruct s. Qed.

Lemma formatted_ids_sublist states :
  (id <$> formattedFlights states) `sublist_of` (id <$> imap format states).
Proof. unfold formattedFlights. apply fmap_sublist, sublist_filter. Qed.

Lemma toMap_ids (l : list Flight) : FlightMap.id <$> (toMap <$> l) = id <$> l.
Proof. rewrite <- list_fmap_compose. by apply list_fmap_ext. Qed.

Lemma provided_ids states :
  Forall provided states → Some <$> (id <$> imap format states) = state0 <$> states.
Proof.
  intros Hall. rewrite !fmap_imap.
  rewrite <- (imap_const (state0 : StateVector → option string)).
  apply imap_ext. intros i state Hi. cbn [compose const].
  rewrite Forall_lookup in Hall. destruct (Hall i state Hi) as (s & Hs & Hne).
  by rewrite (format_id_provided i state s Hs Hne).
Qed.

(** X14. When every record of a response comes with a non-empty identifier
    and no identifier comes twice, no two flights handed to the list or to
    the map view carry the same identifier, and each displayed flight
    carries the identifier of its record. *)
Theorem distinct_provider_ids_give_distinct_flights (states : list StateVector) :
  Forall provided states → NoDup (state0 <$> states) →
  NoDup (id <$> formattedFlights states) ∧
  NoDup (FlightMap.id <$> (toMap <$> formattedFlights states)) ∧
  (∀ index state s,
     states !! index = Some state → state0 state = Some s →
     id (format index state) = s).
Proof.
  intros Hall Hnd.
  assert (NoDup (id <$> formattedFlights states)) as H.
  { apply (sublist_NoDup _ (id <$> imap format states)); [|apply formatted_ids_sublist].
    apply (NoDup_fmap_1 Some). by rewrite provided_ids. }
  split; [done|]. split; [by rewrite toMap_ids|].
  intros index state s Hi Hs. rewrite Forall_lookup in Hall.
  destruct (Hall index state Hi) as (s' & Hs' & Hne).
  apply format_id_provided; congruence.
Qed.

Lemma filter_imap_length (f : nat → StateVector → Flight) (l : list StateVector) :
  (∀ i state, onGround (f i state) = state8 state) →
  length (filter (λ flight, negb (onGround flight) = true) (imap f l)) =
  length (filter (λ state, state8 state = false) l).
Proof.
  revert f. induction l as [|a l IH]; intros f Hf; [done|].
  rewrite imap_cons, !filter_cons.
  assert (length (filter (λ flight, negb (onGround flight) = true) (imap (f ∘ S) l)) =
          length (filter (λ state, state8 state = false) l)) as Hrest.
  { apply IH. intros i st. apply Hf. }
  case_decide as H1; case_decide as H2; rewrite Hf in H1.
  - cbn [length]. by rewrite Hrest.
  - by destruct (state8 a).
  - by destruct (state8 a).
  - done.
Qed.

(** X15. The number of flights displayed after normalisation is the number
    of records of the response that are not flagged on-ground; it can be
    zero for a response that is not empty. *)
Theorem displayed_count_is_airborne_count (states : list StateVector) :
  length (formattedFlights states) =
  length (filter (λ state, state8 state = false) states) ∧
  (Forall (λ state, state8 state = true) states → formattedFlights states = []).
Proof.
  assert (length (formattedFlights states) =
          length (filter (λ state, state8 state = false) states)) as Hlen
    by (by apply filter_imap_length).
  split; [done|]. intros Hall. apply length_zero_iff_nil. rewrite Hlen.
  apply length_zero_iff_nil. clear Hlen. induction Hall as [|a l Ha _ IH]; [done|].
  rewrite filter_cons. case_decide; [congruence|done].
Qed.

(** *** The theorems at work *)

Definition nameless : StateVector :=
  {| state0 := Some "3c6444"; state1 := Some "   "; state2 := None;
     state5 := Some (Finite 0); state6 := Some (Finite 51.4775);
     state7 := Some (Finite 11277.6); state8 := false;
     state9 := Some (Finite 231.5); state10 := Some (Finite 271.6) |}.

Lemma all_provided : Forall provided [Fetching.northbound; Fetching.grounded; nameless].
Proof. repeat constructor; eexists; (split; [reflexivity|discriminate]). Qed.

Lemma all_distinct : NoDup (state0 <$> [Fetching.northbound; Fetching.grounded; nameless]).
Proof.
  repeat (apply NoDup_cons; split);
    [| |apply not_elem_of_nil|apply NoDup_nil; done].
  - intros H. repeat (apply elem_of_cons in H as [H|H]; [discriminate|]).
    by apply elem_of_nil in H.
  - intros H. repeat (apply elem_of_cons in H as [H|H]; [discriminate|]).
    by apply elem_of_nil in H.
Qed.

Lemma displayed_fields_are_never_blank_witness :
  state1 nameless = Some "   " ∧ trim "   " = EmptyString ∧
  callsign (format 2 nameless) = "N/A".
Proof.
  split; [reflexivity|]. split; [reflexivity|].
  exact (proj2 (proj2 (proj2 (proj2 (proj2 (proj2 (proj2 (proj2
           (displayed_fields_are_never_blank 2 nameless))))))))
           "   " eq_refl eq_refl).
Defined.

Lemma distinct_provider_ids_give_distinct_flights_witness :
  Forall provided [Fetching.northbound; Fetching.grounded; nameless] ∧
  NoDup (state0 <$> [Fetching.northbound; Fetching.grounded; nameless]) ∧
  NoDup (FlightMap.id <$>
         (toMap <$> formattedFlights [Fetching.northbound; Fetching.grounded; nameless])).
Proof.
  split; [exact all_provided|]. split; [exact all_distinct|].
  exact (proj1 (proj2 (distinct_provider_ids_give_distinct_flights
                         [Fetching.northbound; Fetching.grounded; nameless]
                         all_provided all_distinct))).
Defined.

Lemma displayed_count_is_airborne_count_witness :
  Forall (λ state, state8 state = true) [Fetching.grounded] ∧
  formattedFlights [Fetching.grounded] = [].
Proof.
  assert (Forall (λ state, state8 state = true) [Fetching.grounded]) as H
    by (by repeat constructor).
  split; [exact H|].
  exact (proj2 (displayed_count_is_airborne_count [Fetching.grounded]) H).
Defined.

End Display.

(* ===================================================================== *)
(** ** The handlers of the search form *)
(* ===================================================================== *)

Module Handlers.
Import JS Net Fetcher.

(** [setSearchQuery] of [src/FlightTracker.tsx]. *)
Definition setSearchQuery (v : string) (s : GlobalFlightTracker.State)
  : GlobalFlightTracker.State :=
  {| GlobalFlightTracker.searchQuery := v;
     GlobalFlightTracker.flights := GlobalFlightTracker.flights s;
     GlobalFlightTracker.loading := GlobalFlightTracker.loading s;
     GlobalFlightTracker.error := GlobalFlightTracker.error s;
     GlobalFlightTracker.searchedLocation := GlobalFlightTracker.searchedLocation s;
     GlobalFlightTracker.currentCoords := GlobalFlightTracker.currentCoords s;
     GlobalFlightTracker.searchRadius := GlobalFlightTracker.searchRadius s;
     GlobalFlightTracker.showMap := GlobalFlightTracker.showMap s |}.

(** [handleSubmit] of [src/FlightTracker.tsx]: the state once the fetch it
    may start has settled, and the requests sent. *)
Definition handleSubmit (net : Network) (s : GlobalFlightTracker.State)
  : GlobalFlightTracker.State * list Request :=
  if truthy_string (trim (GlobalFlightTracker.searchQuery s))
  then GlobalFlightTracker.fetchFlights net (GlobalFlightTracker.searchQuery s) s
  else (s, []).

(** [handleKeyPress], by the [key] of the event. *)
Definition handleKeyPress (net : Network) (key : string) (s : GlobalFlightTracker.State)
  : GlobalFlightTracker.State * list Request :=
  if String.eqb key "Enter" then handleSubmit net s else (s, []).

Definition quickSearches : list string :=
  ["JFK"; "LHR"; "CDG"; "DXB"; "BOM"; "DEL"; "HND"; "SIN"; "LAX"; "FRA"].

(** [onClick] of a quick-search button: [fetchFlights] does not read the
    query cell, so setting it first gives the state the two calls lead to. *)
Definition quickSearch (net : Network) (code : string) (s : GlobalFlightTracker.State)
  : GlobalFlightTracker.State * list Request :=
  GlobalFlightTracker.fetchFlights net code (setSearchQuery code s).

(** [handleSubmit] and [handleKeyPress] of the tracker of cities. *)
Definition handleSubmitCity (net : Network) (s : FlightTracker.State)
  : FlightTracker.State * list Request :=
  if truthy_string (trim (FlightTracker.city s))
  then FlightTracker.fetchFlights net (FlightTracker.city s) s
  else (s, []).

Definition handleKeyPressCity (net : Network) (key : string) (s : FlightTracker.State)
  : FlightTracker.State * list Request :=
  if String.eqb key "Enter" then handleSubmitCity net s else (s, []).

(** A text made of white space only (or empty). *)
Fixpoint blank (s : string) : bool :=
  match s with
  | EmptyString => true
  | String c r => is_space c && blank r
  end.

End Handlers.

(* ===================================================================== *)
(** ** Properties of a search *)
(* ===================================================================== *)

Module Searching.
Import JS Net Fetcher Handlers.

Local Open Scope list_scope.

Lemma trimStart_blank s : trimStart s = EmptyString ↔ blank s = true.
Proof.
  induction s as [|c r IH]; [done|]. cbn [trimStart blank].
  destruct (is_space c); [done|]. split; discriminate.
Qed.

Lemma trimStart_head s :
  trimStart s = EmptyString ∨ ∃ c r, trimStart s = String c r ∧ is_space c = false.
Proof.
  induction s as [|c r IH]; [by left|]. cbn [trimStart].
  destruct (is_space c) eqn:Hc; [done|]. right. eauto.
Qed.

Lemma trimEnd_head c r : is_space c = false → trimEnd (String c r) ≠ EmptyString.
Proof.
  intros Hc. cbn [trimEnd]. destruct (trimEnd r); [by rewrite Hc|done].
Qed.

Lemma trim_blank s : trim s = EmptyString ↔ blank s = true.
Proof.
  unfold trim. rewrite <- trimStart_blank.
  destruct (trimStart_head s) as [->|(c & r & -> & Hc)]; [done|].
  split; [|discriminate]. intros H. by apply trimEnd_head in H.
Qed.

Lemma truthy_trim s : truthy_string (trim s) = negb (blank s).
Proof.
  destruct (blank s) eqn:Hb.
  - apply trim_blank in Hb. by rewrite Hb.
  - destruct (trim s) eqn:Ht; [|done]. apply trim_blank in Ht. congruence.
Qed.

(** A text of ASCII characters only.  On such a text the white space that
    [trim] removes is the white space of [is_space]; outside ASCII, [trim]
    also removes the no-break space and the other Unicode spaces, which
    [is_space] does not know. *)
Definition plain (s : string) : bool :=
  forallb (λ c, (nat_of_ascii c <? 128)%nat) (list_ascii_of_string s).

(** X16. For a query of ASCII characters: submitting the form with an
    empty query, or one made of white space only, sends no request and
    leaves the state as it is, in both trackers; any other query starts a
    fetch with the text as it was typed (in the global tracker the geocoder
    is first asked for that text, untrimmed, followed by " airport").  A
    key other than Enter does nothing, whatever the query. *)
Theorem blank_query_is_not_submitted :
  (∀ net s,
     plain (GlobalFlightTracker.searchQuery s) = true →
     handleSubmit net s =
     if blank (GlobalFlightTracker.searchQuery s) then (s, [])
     else GlobalFlightTracker.fetchFlights net (GlobalFlightTracker.searchQuery s) s) ∧
  (∀ net s,
     plain (GlobalFlightTracker.searchQuery s) = true →
     blank (GlobalFlightTracker.searchQuery s) = false →
     ∃ rest, snd (handleSubmit net s) =
             Geocode (GlobalFlightTracker.searchQuery s ++ " airport")%string :: rest) ∧
  (∀ net s,
     plain (FlightTracker.city s) = true →
     handleSubmitCity net s =
     if blank (FlightTracker.city s) then (s, [])
     else FlightTracker.fetchFlights net (FlightTracker.city s) s) ∧
  (∀ net key s s', key ≠ "Enter" →
     handleKeyPress net key s = (s, []) ∧ handleKeyPressCity net key s' = (s', [])).
Proof.
  split; [|split; [|split]].
  - intros net s _. unfold handleSubmit. rewrite truthy_trim. by destruct (blank _).
  - intros net s _ Hb. unfold handleSubmit. rewrite truthy_trim, Hb. cbn [negb].
    unfold GlobalFlightTracker.fetchFlights, GlobalFlightTracker.attempt.
    assert (∃ rest, fst (GlobalFlightTracker.searchAirport net
                           (GlobalFlightTracker.searchQuery s)) =
                    Geocode (GlobalFlightTracker.searchQuery s ++ " airport")%string :: rest)
      as [rest Hrest].
    { unfold GlobalFlightTracker.searchAirport.
      destruct (GlobalFlightTracker.lookup _ _); [by eexists|..|by eexists].
      destruct (GlobalFlightTracker.lookup _ _); by eexists. }
    destruct (GlobalFlightTracker.searchAirport net _) as [sent [l|]]; simpl in *;
      subst sent; [|by eexists].
    destruct (opensky net _) as [m|[] [m|[[[|st l']|]]]]; simpl; by eexists.
  - intros net s _. unfold handleSubmitCity. rewrite truthy_trim. by destruct (blank _).
  - intros net key s s' Hk. unfold handleKeyPress, handleKeyPressCity.
    apply String.eqb_neq in Hk. by rewrite Hk.
Qed.

Ltac global_outcomes net searchTerm :=
  unfold GlobalFlightTracker.fetchFlights, GlobalFlightTracker.attempt;
  destruct (GlobalFlightTracker.searchAirport net searchTerm) as [sent [l|]];
  [destruct (opensky net _) as [m|[] [m|[[[|st l']|]]]]|]; simpl.

Ltac city_outcomes net :=
  unfold FlightTracker.fetchFlights, FlightTracker.attempt;
  destruct (FlightTracker.member _) as [c|];
  [destruct (opensky net _) as [m|[] [m|[[[|st l']|]]]]|]; simpl.

(** X18. In the tracker of cities a fetch that fails keeps the list of the
    previous search: whenever it ends with a message, the flights are those
    held before the fetch, displayed beside the message. *)
Theorem city_fetch_keeps_stale_list_on_failure
    (net : Network) (cityName : string) (s : FlightTracker.State) :
  FlightTracker.error (fst (FlightTracker.fetchFlights net cityName s)) ≠ EmptyString →
  FlightTracker.flights (fst (FlightTracker.fetchFlights net cityName s)) =
  FlightTracker.flights s.
Proof. city_outcomes net; done. Qed.

(** X19. A fetch of the global tracker never changes the query, the radius
    or the view toggle.  The location label and the centre of the map are
    set as soon as the location resolves, whatever the flight-state provider
    then answers, and are left as they were when it does not resolve. *)
Theorem global_fetch_sets_location_when_resolved
    (net : Network) (searchTerm : string) (s : GlobalFlightTracker.State) :
  GlobalFlightTracker.searchQuery (fst (GlobalFlightTracker.fetchFlights net searchTerm s))
    = GlobalFlightTracker.searchQuery s ∧
  GlobalFlightTracker.searchRadius (fst (GlobalFlightTracker.fetchFlights net searchTerm s))
    = GlobalFlightTracker.searchRadius s ∧
  GlobalFlightTracker.showMap (fst (GlobalFlightTracker.fetchFlights net searchTerm s))
    = GlobalFlightTracker.showMap s ∧
  match snd (GlobalFlightTracker.searchAirport net searchTerm) with
  | Some l =>
      GlobalFlightTracker.searchedLocation
        (fst (GlobalFlightTracker.fetchFlights net searchTerm s))
        = GlobalFlightTracker.name l ∧
      GlobalFlightTracker.currentCoords
        (fst (GlobalFlightTracker.fetchFlights net searchTerm s))
        = (GlobalFlightTracker.loc_lat l, GlobalFlightTracker.loc_lon l)
  | None =>
      GlobalFlightTracker.searchedLocation
        (fst (GlobalFlightTracker.fetchFlights net searchTerm s))
        = GlobalFlightTracker.searchedLocation s ∧
      GlobalFlightTracker.currentCoords
        (fst (GlobalFlightTracker.fetchFlights net searchTerm s))
        = GlobalFlightTracker.currentCoords s
  end.
Proof. global_outcomes net searchTerm; done. Qed.

(** X20. A quick-search button does what typing its code and submitting
    does, and leaves the code in the search box. *)
Theorem quick_search_is_type_and_submit
    (net : Network) (code : string) (s : GlobalFlightTracker.State) :
  code ∈ quickSearches →
  quickSearch net code s = handleSubmit net (setSearchQuery code s) ∧
  GlobalFlightTracker.searchQuery (fst (quickSearch net code s)) = code.
Proof.
  intros Hin. split.
  - unfold quickSearch, handleSubmit. cbn [setSearchQuery GlobalFlightTracker.searchQuery].
    rewrite truthy_trim.
    assert (blank code = false) as ->; [|done].
    unfold quickSearches in Hin.
    repeat (apply elem_of_cons in Hin as [->|Hin]; [reflexivity|]).
    by apply elem_of_nil in Hin.
  - unfold quickSearch. global_outcomes net code; done.
Qed.

(** *** The theorems at work *)

(** The tracker of cities after a search that displayed one aircraft. *)
Definition overBangalore : FlightTracker.State :=
  {| FlightTracker.city := "Atlantis";
     FlightTracker.flights := [format 0 Fetching.northbound];
     FlightTracker.loading := false; FlightTracker.error := EmptyString;
     FlightTracker.searchedCity := "Bangalore"; FlightTracker.showMap := false;
     FlightTracker.currentCityCoords := (Finite 12.9716, Finite 77.5946) |}.

Lemma atlantis_is_not_found :
  FlightTracker.error (fst (FlightTracker.fetchFlights Fetching.newYork "Atlantis"
                              overBangalore)) ≠ EmptyString.
Proof. discriminate. Qed.

Lemma JFK_is_quick : "JFK" ∈ quickSearches.
Proof. apply elem_of_cons. by left. Qed.

Lemma blank_query_is_not_submitted_witness :
  plain (GlobalFlightTracker.searchQuery Fetching.idle) = true ∧
  blank (GlobalFlightTracker.searchQuery Fetching.idle) = false ∧
  ∃ rest, snd (handleSubmit Fetching.newYork Fetching.idle) =
          Geocode (GlobalFlightTracker.searchQuery Fetching.idle ++ " airport")%string
          :: rest.
Proof.
  split; [reflexivity|]. split; [reflexivity|].
  exact (proj1 (proj2 blank_query_is_not_submitted) Fetching.newYork Fetching.idle
           eq_refl eq_refl).
Defined.

Lemma city_fetch_keeps_stale_list_on_failure_witness :
  FlightTracker.error (fst (FlightTracker.fetchFlights Fetching.newYork "Atlantis"
                              overBangalore)) ≠ EmptyString ∧
  FlightTracker.flights (fst (FlightTracker.fetchFlights Fetching.newYork "Atlantis"
                                overBangalore)) =
  FlightTracker.flights overBangalore.
Proof.
  split; [exact atlantis_is_not_found|].
  exact (city_fetch_keeps_stale_list_on_failure Fetching.newYork "Atlantis" overBangalore
           atlantis_is_not_found).
Defined.

Lemma quick_search_is_type_and_submit_witness :
  "JFK" ∈ quickSearches ∧
  quickSearch Fetching.newYork "JFK" Fetching.idle =
  handleSubmit Fetching.newYork (setSearchQuery "JFK" Fetching.idle).
Proof.
  split; [exact JFK_is_quick|].
  exact (proj1 (quick_search_is_type_and_submit Fetching.newYork "JFK" Fetching.idle
                  JFK_is_quick)).
Defined.

End Searching.

(* ===================================================================== *)
(** ** The map view with the marker of the user's location *)
(* ===================================================================== *)

(** The variant of the map component that also shows where the user is:
    the same refs, [updateMapFlights] and initialising effect as
    [FlightMap], and on top of them [updateUserLocation],
    [handleOrientation] and [stopLocationTracking].  The calls these make to
    the browser are recorded, not interpreted. *)
Module UserLocation.
Import JS FlightMap.

(** [L.marker] of the user: its position, the rotation of [createUserIcon]
    and the numbers printed in its popup. *)
Record UserMarker : Type := {
  user_marker_id : nat;
  user_latlng : LatLng;
  user_rotate : number;
  user_popup : number * number * number
}.

(** [L.circle]. *)
Record Circle : Type := {
  circle_id : nat;
  circle_latlng : LatLng;
  circle_radius : number
}.

(** [interface UserLocationData]. *)
Record UserLocationData : Type := {
  marker : option UserMarker;
  circle : option Circle
}.

(** The refs of [FlightMap], the three refs the variant adds and its
    [locationEnabled] cell. *)
Record View : Type := {
  refs : Refs;
  userLocationRef : UserLocationData;
  watchIdRef : option nat;
  currentHeadingRef : number;
  locationEnabled : bool
}.

Definition with_refs (r : Refs) (v : View) : View :=
  {| refs := r; userLocationRef := userLocationRef v; watchIdRef := watchIdRef v;
     currentHeadingRef := currentHeadingRef v; locationEnabled := locationEnabled v |}.

Definition with_user (u : UserLocationData) (v : View) : View :=
  {| refs := refs v; userLocationRef := u; watchIdRef := watchIdRef v;
     currentHeadingRef := currentHeadingRef v; locationEnabled := locationEnabled v |}.

Definition with_watch (w : option nat) (v : View) : View :=
  {| refs := refs v; userLocationRef := userLocationRef v; watchIdRef := w;
     currentHeadingRef := currentHeadingRef v; locationEnabled := locationEnabled v |}.

Definition with_heading (h : number) (v : View) : View :=
  {| refs := refs v; userLocationRef := userLocationRef v; watchIdRef := watchIdRef v;
     currentHeadingRef := h; locationEnabled := locationEnabled v |}.

Definition setLocationEnabled (b : bool) (v : View) : View :=
  {| refs := refs v; userLocationRef := userLocationRef v; watchIdRef := watchIdRef v;
     currentHeadingRef := currentHeadingRef v; locationEnabled := b |}.

(** The calls made to the browser. *)
Inductive Call : Type :=
| ClearWatch (watchId : nat)
| RemoveOrientationListener.

(** The event of the device's orientation: [webkitCompassHeading] may be
    [undefined] and [alpha] may be [null]. *)
Record DeviceOrientationEvent : Type := {
  webkitCompassHeading : option number;
  alpha : option number
}.

Definition updateUserLocation (lat lon accuracy : number) (v : View) : View :=
  match mapRef (refs v) with
  | None => v
  | Some m =>
      let position : LatLng := (lat, lon) in
      match marker (userLocationRef v) with
      | Some mk =>
          let mk' :=
            {| user_marker_id := user_marker_id mk;
               user_latlng := position;
               user_rotate := currentHeadingRef v;
               user_popup := user_popup mk |} in
          let c' :=
            match circle (userLocationRef v) with
            | Some c =>
                Some {| circle_id := circle_id c; circle_latlng := position;
                        circle_radius := accuracy |}
            | None => None
            end in
          with_user {| marker := Some mk'; circle := c' |} v
      | None =>
          let marker0 :=
            {| user_marker_id := S (lastId (refs v));
               user_latlng := position;
               user_rotate := currentHeadingRef v;
               user_popup := (lat, lon, accuracy) |} in
          let circle0 :=
            {| circle_id := S (S (lastId (refs v)));
               circle_latlng := position;
               circle_radius := accuracy |} in
          with_user {| marker := Some marker0; circle := Some circle0 |}
            (with_refs
               (with_lastId (circle_id circle0)
                  (with_map
                     (Some (addTo (circle_id circle0) (addTo (user_marker_id marker0) m)))
                     (refs v))) v)
      end
  end.

(** The heading an orientation event gives. *)
Definition compass (event : DeviceOrientationEvent) : number :=
  match webkitCompassHeading event with
  | Some h => h
  | None =>
      match alpha event with
      | Some a => sub (Finite 360) a
      | None => Finite 0
      end
  end.

Definition handleOrientation (event : DeviceOrientationEvent) (v : View) : View :=
  let heading := compass event in
  let v1 := with_heading heading v in
  match marker (userLocationRef v1) with
  | Some mk =>
      with_user
        {| marker := Some {| user_marker_id := user_marker_id mk;
                             user_latlng := user_latlng mk;
                             user_rotate := heading;
                             user_popup := user_popup mk |};
           circle := circle (userLocationRef v1) |} v1
  | None => v1
  end.

(** The success callback given to [watchPosition]. *)
Definition onPosition (lat lon accuracy : number) (v : View) : View :=
  setLocationEnabled true (updateUserLocation lat lon accuracy v).

Definition stopLocationTracking (v : View) : View * list Call :=
  let '(v1, calls1) :=
    match watchIdRef v with
    | Some watchId => (with_watch None v, [ClearWatch watchId])
    | None => (v, [])
    end in
  let v2 :=
    match marker (userLocationRef v1) with
    | Some mk =>
        with_user {| marker := None; circle := circle (userLocationRef v1) |}
          (with_refs (remove (user_marker_id mk) (refs v1)) v1)
    | None => v1
    end in
  let v3 :=
    match circle (userLocationRef v2) with
    | Some c =>
        with_user {| marker := marker (userLocationRef v2); circle := None |}
          (with_refs (remove (circle_id c) (refs v2)) v2)
    | None => v2
    end in
  (setLocationEnabled false v3, (calls1 ++ [RemoveOrientationListener])%list).

(** The effect that runs [updateMapFlights] for a [flights] prop. *)
Definition reconcile (flights : list Flight) (v : View) : View :=
  with_refs (updateMapFlights flights (refs v)) v.

(** The view when the effects first run. *)
Definition mountedView (n : nat) (cityCoords : LatLng) : View :=
  {| refs := initMap cityCoords (mounted n);
     userLocationRef := {| marker := None; circle := None |};
     watchIdRef := None;
     currentHeadingRef := Finite 0;
     locationEnabled := false |}.

(** The views a mounted component goes through: passes, position fixes,
    orientation events, stops, and [watchPosition] handing out the
    identifier of a watch when tracking starts. *)
Inductive reachable : View → Prop :=
| reach_mount (n : nat) (cityCoords : LatLng) : reachable (mountedView n cityCoords)
| reach_flights (v : View) (flights : list Flight) :
    reachable v → reachable (reconcile flights v)
| reach_position (v : View) (lat lon accuracy : number) :
    reachable v → reachable (onPosition lat lon accuracy v)
| reach_orientation (v : View) (event : DeviceOrientationEvent) :
    reachable v → reachable (handleOrientation event v)
| reach_stop (v : View) :
    reachable v → reachable (fst (stopLocationTracking v))
| reach_watch (v : View) (watchId : nat) :
    reachable v → reachable (with_watch (Some watchId) v).

(** The Leaflet objects of the user's location. *)
Definition own (v : View) : list nat :=
  match marker (userLocationRef v) with Some mk => [user_marker_id mk] | None => [] end ++
  match circle (userLocationRef v) with Some c => [circle_id c] | None => [] end.

(** What holds of a mounted view: the refs of the flights are as in
    [FlightMap]; the marker and the circle of the user come together, are
    stamped, on the map and no object of a tracked flight. *)
Record tidy (v : View) : Prop := {
  tidy_flights : invariant (refs v);
  tidy_paired : is_Some (marker (userLocationRef v)) ↔ is_Some (circle (userLocationRef v));
  tidy_own : ∀ h, h ∈ own v →
    (h ≤ lastId (refs v))%nat ∧ h ∈ shown (refs v) ∧
    ∀ i d, flightMarkersRef (refs v) !! i = Some d → h ∉ handles d
}.

End UserLocation.

(* ===================================================================== *)
(** ** Properties of the marker of the user's location *)
(* ===================================================================== *)

Module Overlay.
Import JS FlightMap Reconciler Tracks UserLocation.

Local Open Scope nat_scope.
Local Open Scope list_scope.

(** *** Where the objects of the flights come from, through a pass *)

Lemma upserted_handles l r j d' h :
  is_Some (mapRef r) →
  flightMarkersRef (fold_left upsert l r) !! j = Some d' → h ∈ handles d' →
  (∃ d, flightMarkersRef r !! j = Some d ∧ h ∈ handles d) ∨ lastId r < h.
Proof.
  revert r. induction l as [|a l IH]; intros r Hm Hd' Hh; cbn [fold_left] in Hd'.
  - left. eauto.
  - destruct (IH _ (upsert_mapRef _ a Hm) Hd' Hh) as [(d1 & Hd1 & Hh1)|Hlt].
    + destruct (upsert_handles _ _ _ _ _ Hm Hd1 Hh1) as [?|(_ & -> & _)]; [by left|].
      right. lia.
    + right. destruct (upsert_lastId r a) as [Heq|Heq]; rewrite Heq in Hlt; lia.
Qed.

Lemma update_handles flights r j d' h :
  is_Some (mapRef r) →
  flightMarkersRef (updateMapFlights flights r) !! j = Some d' → h ∈ handles d' →
  (∃ d, flightMarkersRef r !! j = Some d ∧ h ∈ handles d) ∨ lastId r < h.
Proof.
  intros Hm. rewrite update_upserted; [|done]. intros Hd' Hh.
  destruct (upserted_handles _ _ _ _ _ (during_nil_mapRef flights r Hm) Hd' Hh)
    as [(d & Hd & Hhd)|Hlt].
  - left. exists d. split; [|done]. rewrite during_nil_lookup in Hd. by case_decide.
  - right. unfold during in Hlt. cbn [fold_left] in Hlt. by rewrite evicted_lastId in Hlt.
Qed.

Lemma update_keeps_layer flights r h :
  h ∈ shown r → (∀ i d, flightMarkersRef r !! i = Some d → h ∉ handles d) →
  h ∈ shown (updateMapFlights flights r).
Proof.
  intros Hh Hfree. unfold updateMapFlights. destruct (mapRef r); [|done].
  apply upserted_shown_mono, evicted_shown_keep; [done|]. intros i d Hd _. by apply (Hfree i d).
Qed.

(** *** The refs of the flights under the operations on the user's marker *)

Lemma grow_invariant r m a b :
  invariant r → mapRef r = Some m → lastId r ≤ b →
  invariant (with_lastId b (with_map (Some (addTo b (addTo a m))) r)).
Proof.
  intros [_ Hst Hown Hov Htr] Hm Hb. split; simpl; try done.
  intros i d h Hd Hh. destruct (Hst i d h Hd Hh) as [Hle Hsh]. split; [lia|].
  unfold shown in *. rewrite Hm in Hsh. simpl. set_solver.
Qed.

Lemma remove_invariant r h :
  invariant r → (∀ i d, flightMarkersRef r !! i = Some d → h ∉ handles d) →
  invariant (remove h r).
Proof.
  intros [Hmap Hst Hown Hov Htr] Hfree. split; simpl; try done.
  - destruct Hmap as [m Hm]. rewrite Hm. by eexists.
  - intros i d k Hd Hk. destruct (Hst i d k Hd Hk) as [Hle Hsh]. split; [done|].
    apply shown_remove. split; [done|]. intros ->. by apply (Hfree i d).
Qed.

(** *** What holds of every mounted view *)

Lemma reconcile_tidy flights v : tidy v → tidy (reconcile flights v).
Proof.
  intros [Hinv Hpair Hown]. pose proof (inv_map _ Hinv) as Hm. split.
  - by apply update_invariant.
  - done.
  - intros h Hh. destruct (Hown h Hh) as (Hle & Hsh & Hfree).
    cbn [reconcile with_refs refs]. split; [|split].
    + etrans; [done|apply update_lastId].
    + by apply update_keeps_layer.
    + intros i d' Hd' Hhd'.
      destruct (update_handles _ _ _ _ _ Hm Hd' Hhd') as [(d & Hd & Hhd)|Hlt]; [|lia].
      by apply (Hfree i d).
Qed.

Lemma updateUserLocation_tidy lat lon accuracy v :
  tidy v → tidy (updateUserLocation lat lon accuracy v).
Proof.
  intros [Hinv Hpair Hown]. pose proof (inv_map _ Hinv) as [m Hm].
  unfold updateUserLocation. rewrite Hm.
  destruct (UserLocation.marker (userLocationRef v)) as [mk|] eqn:Hmk.
  - destruct (circle (userLocationRef v)) as [c|] eqn:Hc.
    + split; cbn; [done|by split; eauto|].
      intros h Hh. apply Hown. unfold own. by rewrite Hmk, Hc.
    + exfalso. destruct Hpair as [H _]. by destruct H.
  - assert (circle (userLocationRef v) = None) as Hc.
    { destruct (circle (userLocationRef v)) eqn:Hc; [|done].
      destruct Hpair as [_ H]. by destruct H. }
    split; cbn [refs with_user with_refs userLocationRef UserLocation.marker circle].
    + apply grow_invariant; [done|done|cbn; lia].
    + by split; eauto.
    + intros h Hh. unfold own in Hh.
      cbn [userLocationRef with_user UserLocation.marker circle user_marker_id circle_id] in Hh.
      destruct Hinv as [_ Hst _ _ _].
      assert (h = S (lastId (refs v)) ∨ h = S (S (lastId (refs v)))) as Hcase by set_solver.
      cbn [lastId with_lastId circle_id]. split; [lia|]. split.
      * unfold shown. cbn. set_solver.
      * intros i d Hd Hhd. cbn in Hd. destruct (Hst i d h Hd Hhd). lia.
Qed.

Lemma onPosition_tidy lat lon accuracy v : tidy v → tidy (onPosition lat lon accuracy v).
Proof.
  intros H. destruct (updateUserLocation_tidy lat lon accuracy v H) as [H1 H2 H3].
  by split.
Qed.

Lemma handleOrientation_tidy event v : tidy v → tidy (handleOrientation event v).
Proof.
  intros [Hinv Hpair Hown]. unfold handleOrientation.
  cbn [with_heading userLocationRef].
  destruct (UserLocation.marker (userLocationRef v)) as [mk|] eqn:Hmk.
  - split; cbn; [done| |].
    + split; [intros _|by eauto]. apply Hpair. by eexists.
    + intros h Hh. apply Hown. unfold own. by rewrite Hmk.
  - split; [done|cbn [with_heading userLocationRef]; rewrite Hmk; exact Hpair|].
    intros h Hh. apply Hown. unfold own in *. by cbn in Hh.
Qed.

Lemma stop_refs v :
  refs (fst (stopLocationTracking v)) =
  match circle (userLocationRef v) with
  | Some c =>
      remove (circle_id c)
        match UserLocation.marker (userLocationRef v) with
        | Some mk => remove (user_marker_id mk) (refs v)
        | None => refs v
        end
  | None =>
      match UserLocation.marker (userLocationRef v) with
      | Some mk => remove (user_marker_id mk) (refs v)
      | None => refs v
      end
  end.
Proof.
  destruct v as [r [[mk|] [c|]] [w|] h e]; reflexivity.
Qed.

Lemma stop_user v :
  userLocationRef (fst (stopLocationTracking v)) = {| marker := None; circle := None |}.
Proof.
  destruct v as [r [[mk|] [c|]] [w|] h e]; reflexivity.
Qed.

Lemma stop_tidy v : tidy v → tidy (fst (stopLocationTracking v)).
Proof.
  intros [Hinv Hpair Hown]. split.
  - rewrite stop_refs.
    assert (∀ h, h ∈ own v →
                 ∀ i d, flightMarkersRef (refs v) !! i = Some d → h ∉ handles d) as Hfree
      by (intros h Hh; by destruct (Hown h Hh) as (_ & _ & ?)).
    unfold own in Hfree.
    destruct (UserLocation.marker (userLocationRef v)) as [mk|],
      (circle (userLocationRef v)) as [c|]; try done.
    + apply remove_invariant; [apply remove_invariant; [done|]|].
      * apply Hfree. set_solver.
      * cbn. apply Hfree. set_solver.
    + apply remove_invariant; [done|]. apply Hfree. set_solver.
    + apply remove_invariant; [done|]. apply Hfree. set_solver.
  - rewrite stop_user. cbn. split; by intros [? ?].
  - intros h. unfold own. rewrite stop_user. cbn. by intros ?%elem_of_nil.
Qed.

Lemma reachable_tidy v : reachable v → tidy v.
Proof.
  induction 1 as [n c|v flights _ IH|v la lo ac _ IH|v e _ IH|v _ IH|v w _ IH].
  - split; cbn.
    + apply reachable_invariant, FlightMap.reach_init.
    + split; by intros [? ?].
    + by intros h ?%elem_of_nil.
  - by apply reconcile_tidy.
  - by apply onPosition_tidy.
  - by apply handleOrientation_tidy.
  - by apply stop_tidy.
  - destruct IH as [H1 H2 H3]. by split.
Qed.

(** *** Position fixes *)

(** X21. After a position fix the view has exactly one marker and one
    accuracy circle for the user, both on the map, both at the position of
    the fix, the circle with the accuracy as radius and the marker turned to
    the current compass heading, and location is shown as enabled.  When the
    user already had a marker, the fix moves the same two objects: nothing
    is added to the map, and the popup keeps the numbers of the first
    fix. *)
Theorem position_fix_moves_the_one_marker (v : View) (lat lon accuracy : number) :
  reachable v →
  ∃ mk c,
    userLocationRef (onPosition lat lon accuracy v) = {| marker := Some mk; circle := Some c |} ∧
    user_latlng mk = (lat, lon) ∧ circle_latlng c = (lat, lon) ∧
    circle_radius c = accuracy ∧ user_rotate mk = currentHeadingRef v ∧
    user_marker_id mk ∈ shown (refs (onPosition lat lon accuracy v)) ∧
    circle_id c ∈ shown (refs (onPosition lat lon accuracy v)) ∧
    locationEnabled (onPosition lat lon accuracy v) = true ∧
    (∀ mk0, UserLocation.marker (userLocationRef v) = Some mk0 →
            user_marker_id mk = user_marker_id mk0 ∧ user_popup mk = user_popup mk0 ∧
            refs (onPosition lat lon accuracy v) = refs v) ∧
    (UserLocation.marker (userLocationRef v) = None →
     user_popup mk = (lat, lon, accuracy) ∧ lastId (refs v) < user_marker_id mk).
Proof.
  intros Hr. pose proof (reachable_tidy _ Hr) as Ht.
  pose proof (onPosition_tidy lat lon accuracy v Ht) as [_ _ Hown'].
  destruct Ht as [Hinv Hpair _]. pose proof (inv_map _ Hinv) as [m Hm].
  revert Hown'. unfold own, onPosition, updateUserLocation. rewrite Hm.
  destruct (UserLocation.marker (userLocationRef v)) as [mk0|] eqn:Hmk.
  - destruct (circle (userLocationRef v)) as [c0|] eqn:Hc.
    2: { exfalso. destruct Hpair as [H _]. by destruct H. }
    cbn. intros Hown'. eexists _, _. split; [reflexivity|]. cbn.
    repeat split; try done.
    + apply Hown'. set_solver.
    + apply Hown'. set_solver.
    + congruence.
    + congruence.
  - cbn. intros Hown'. eexists _, _. split; [reflexivity|]. cbn.
    repeat split; try done.
    + apply Hown'. set_solver.
    + apply Hown'. set_solver.
    + lia.
Qed.

(** *** The compass *)

(** X22. An orientation event sets the heading of the user's marker: the
    heading of the vendor's compass property when the event has one, even if
    it also has the standard angle; else 360 minus the standard angle; else
    0.  The marker, if there is one, is turned to that heading where it
    stands, and a position fix that follows keeps it turned so. *)
Theorem marker_shows_the_latest_compass_heading
    (v : View) (event : DeviceOrientationEvent) :
  currentHeadingRef (handleOrientation event v) = compass event ∧
  (∀ h, webkitCompassHeading event = Some h → compass event = h) ∧
  (∀ a, webkitCompassHeading event = None → alpha event = Some a →
        compass event = sub (Finite 360) a) ∧
  (webkitCompassHeading event = None → alpha event = None → compass event = Finite 0) ∧
  (∀ mk0, UserLocation.marker (userLocationRef v) = Some mk0 →
     ∃ mk, UserLocation.marker (userLocationRef (handleOrientation event v)) = Some mk ∧
           user_rotate mk = compass event ∧ user_latlng mk = user_latlng mk0 ∧
           user_marker_id mk = user_marker_id mk0) ∧
  refs (handleOrientation event v) = refs v ∧
  (is_Some (mapRef (refs v)) →
   ∀ lat lon accuracy mk,
     UserLocation.marker (userLocationRef (onPosition lat lon accuracy
                                             (handleOrientation event v))) = Some mk →
     user_rotate mk = compass event).
Proof.
  assert (currentHeadingRef (handleOrientation event v) = compass event) as Hh.
  { unfold handleOrientation. cbn. by destruct (UserLocation.marker (userLocationRef v)). }
  assert (refs (handleOrientation event v) = refs v) as Hrefs.
  { unfold handleOrientation. cbn. by destruct (UserLocation.marker (userLocationRef v)). }
  split; [done|].
  split; [intros h H; unfold compass; by rewrite H|].
  split; [intros a H1 H2; unfold compass; by rewrite H1, H2|].
  split; [intros H1 H2; unfold compass; by rewrite H1, H2|].
  split; [|split; [done|]].
  - intros mk0 Hmk. unfold handleOrientation. cbn. rewrite Hmk. cbn. by eexists.
  - intros [m Hm] lat lon accuracy mk. unfold onPosition, updateUserLocation.
    rewrite Hrefs, Hm, Hh.
    destruct (UserLocation.marker (userLocationRef (handleOrientation event v)));
      cbn; by intros [= <-].
Qed.

(** *** Stopping *)

(** X23. Stopping the tracking of the user's location takes the user's
    marker and circle off the map and out of the refs, forgets the watch and
    shows location as disabled; it asks the browser to clear the watch it
    held, if it held one, and to remove the orientation listener; the flights
    tracked and their objects on the map are left as they are. *)
Theorem stop_removes_the_user_location (v : View) :
  reachable v →
  userLocationRef (fst (stopLocationTracking v)) = {| marker := None; circle := None |} ∧
  (∀ h, h ∈ own v → h ∉ shown (refs (fst (stopLocationTracking v)))) ∧
  watchIdRef (fst (stopLocationTracking v)) = None ∧
  locationEnabled (fst (stopLocationTracking v)) = false ∧
  snd (stopLocationTracking v) =
    match watchIdRef v with
    | Some watchId => [ClearWatch watchId; RemoveOrientationListener]
    | None => [RemoveOrientationListener]
    end ∧
  flightMarkersRef (refs (fst (stopLocationTracking v))) = flightMarkersRef (refs v) ∧
  (∀ i d h, flightMarkersRef (refs v) !! i = Some d → h ∈ handles d →
            h ∈ shown (refs (fst (stopLocationTracking v)))).
Proof.
  intros Hr. pose proof (reachable_tidy _ Hr) as Ht.
  pose proof (stop_tidy v Ht) as [Hinv' _ _]. destruct Ht as [Hinv Hpair Hown].
  assert (flightMarkersRef (refs (fst (stopLocationTracking v))) = flightMarkersRef (refs v))
    as Hsame by (by destruct v as [r [[mk|] [c|]] [w|] h e]).
  split; [apply stop_user|]. split; [|split; [|split; [|split; [|split]]]].
  - intros h. rewrite stop_refs. unfold own.
    destruct (UserLocation.marker (userLocationRef v)) as [mk|],
      (circle (userLocationRef v)) as [c|]; rewrite ?shown_remove; set_solver.
  - by destruct v as [r [[mk|] [c|]] [w|] h e].
  - by destruct v as [r [[mk|] [c|]] [w|] h e].
  - by destruct v as [r [[mk|] [c|]] [w|] h e].
  - done.
  - intros i d h Hd Hh. apply (inv_stamped _ Hinv' i d h); [|done]. by rewrite Hsame.
Qed.

(** *** Flights and the user's location *)

(** X24. The flights and the user's location do not touch each other.  A
    pass of [updateMapFlights] leaves the refs of the user's location as
    they are and leaves the user's marker and circle on the map; a position
    fix and an orientation event leave the mapping of the tracked flights as
    it is and leave every object of a tracked flight on the map. *)
Theorem flights_and_user_location_do_not_interact (v : View) :
  reachable v →
  (∀ flights,
     userLocationRef (reconcile flights v) = userLocationRef v ∧
     ∀ h, h ∈ own v → h ∈ shown (refs (reconcile flights v))) ∧
  (∀ lat lon accuracy,
     flightMarkersRef (refs (onPosition lat lon accuracy v)) = flightMarkersRef (refs v) ∧
     ∀ i d h, flightMarkersRef (refs v) !! i = Some d → h ∈ handles d →
              h ∈ shown (refs (onPosition lat lon accuracy v))) ∧
  (∀ event,
     flightMarkersRef (refs (handleOrientation event v)) = flightMarkersRef (refs v) ∧
     ∀ i d h, flightMarkersRef (refs v) !! i = Some d → h ∈ handles d →
              h ∈ shown (refs (handleOrientation event v))).
Proof.
  intros Hr. pose proof (reachable_tidy _ Hr) as Ht. split; [|split].
  - intros flights. split; [done|]. intros h Hh.
    pose proof (reconcile_tidy flights v Ht) as [_ _ Hown']. by apply Hown'.
  - intros lat lon accuracy.
    pose proof (onPosition_tidy lat lon accuracy v Ht) as [Hinv' _ _].
    assert (flightMarkersRef (refs (onPosition lat lon accuracy v)) =
            flightMarkersRef (refs v)) as Hsame.
    { unfold onPosition, updateUserLocation. destruct (mapRef (refs v)); [|done].
      by destruct (UserLocation.marker (userLocationRef v)). }
    split; [done|]. intros i d h Hd Hh.
    apply (inv_stamped _ Hinv' i d h); [|done]. by rewrite Hsame.
  - intros event.
    pose proof (handleOrientation_tidy event v Ht) as [Hinv' _ _].
    assert (flightMarkersRef (refs (handleOrientation event v)) =
            flightMarkersRef (refs v)) as Hsame.
    { unfold handleOrientation. cbn. by destruct (UserLocation.marker (userLocationRef v)). }
    split; [done|]. intros i d h Hd Hh.
    apply (inv_stamped _ Hinv' i d h); [|done]. by rewrite Hsame.
Qed.

(** *** The theorems at work *)

(** A view mounted over Bangalore whose watch has delivered a first fix. *)
Definition view0 : View := mountedView 0 (Finite 12.9716, Finite 77.5946).
Definition view1 : View :=
  onPosition (Finite 12.97) (Finite 77.59) (Finite 25) (with_watch (Some 7) view0).

Definition iPhone : DeviceOrientationEvent :=
  {| webkitCompassHeading := Some (Finite 90); alpha := Some (Finite 10) |}.

Lemma view1_reachable : reachable view1.
Proof. apply reach_position, reach_watch, reach_mount. Qed.

Lemma position_fix_moves_the_one_marker_witness :
  reachable view1 ∧
  ∃ mk c,
    userLocationRef (onPosition (Finite 13) (Finite 77.6) (Finite 10) view1)
      = {| marker := Some mk; circle := Some c |} ∧
    user_latlng mk = (Finite 13, Finite 77.6) ∧ circle_radius c = Finite 10.
Proof.
  split; [exact view1_reachable|].
  destruct (position_fix_moves_the_one_marker view1 (Finite 13) (Finite 77.6) (Finite 10)
              view1_reachable) as (mk & c & H1 & H2 & _ & H4 & _).
  exists mk, c. auto.
Defined.

Lemma marker_shows_the_latest_compass_heading_witness :
  webkitCompassHeading iPhone = Some (Finite 90) ∧ compass iPhone = Finite 90.
Proof.
  split; [reflexivity|].
  exact (proj1 (proj2 (marker_shows_the_latest_compass_heading view1 iPhone))
           (Finite 90) eq_refl).
Defined.

Lemma stop_removes_the_user_location_witness :
  reachable view1 ∧
  userLocationRef (fst (stopLocationTracking view1)) = {| marker := None; circle := None |} ∧
  snd (stopLocationTracking view1) = [ClearWatch 7; RemoveOrientationListener].
Proof.
  split; [exact view1_reachable|].
  destruct (stop_removes_the_user_location view1 view1_reachable)
    as (H1 & _ & _ & _ & H5 & _).
  split; [exact H1|exact H5].
Defined.

Lemma flights_and_user_location_do_not_interact_witness :
  reachable view1 ∧
  ∀ h, h ∈ own view1 → h ∈ shown (refs (reconcile [plane "a" 13 77] view1)).
Proof.
  split; [exact view1_reachable|].
  exact (proj2 (proj1 (flights_and_user_location_do_not_interact view1 view1_reachable)
                  [plane "a" 13 77])).
Defined.

End Overlay.

(* ===================================================================== *)
(** ** The pass under Leaflet's check of positions *)
(* ===================================================================== *)

(** [FlightMap.upsert] is the callback of the pass as it runs when Leaflet
    accepts the position it is handed.  Leaflet builds a [LatLng] from that
    position, in [L.marker(currentPos)] and in [marker.setLatLng(currentPos)],
    and the constructor of [LatLng] throws
    [Error('Invalid LatLng object: (lat, lng)')] when [isNaN(lat) ||
    isNaN(lng)].  Nothing in the component catches the error: it leaves the
    callback, [forEach] and the pass, and React takes the component off the
    page, so that no pass follows an aborted one. *)
Module Checked.
Import JS FlightMap.

Definition isNaN (a : number) : bool :=
  match a with
  | NaN => true
  | _ => false
  end.

(** The test of the constructor of [LatLng]. *)
Definition refused (p : LatLng) : bool := isNaN (fst p) || isNaN (snd p).

(** The text every such error begins with (the coordinates follow it). *)
Definition invalidLatLng : string := "Invalid LatLng object".

(** Callback of [flights.forEach].  For a tracked flight [setLatLng] is the
    first statement; for another one the guard on the map comes first, and
    [L.marker] comes before [addTo] and [flightMarkersRef.current.set]: a
    refused position is thrown before anything is changed. *)
Definition callback (r : Refs) (flight : Flight) : Refs * Completion :=
  let currentPos : LatLng := (latitude flight, longitude flight) in
  match flightMarkersRef r !! id flight with
  | Some _ =>
      if refused currentPos then (r, Throw invalidLatLng) else (upsert r flight, Normal)
  | None =>
      match mapRef r with
      | None => (r, Normal)
      | Some _ =>
          if refused currentPos then (r, Throw invalidLatLng)
          else (upsert r flight, Normal)
      end
  end.

(** [flights.forEach(callback)]: an error thrown by the callback ends the
    iteration. *)
Fixpoint forEach (flights : list Flight) (r : Refs) : Refs * Completion :=
  match flights with
  | [] => (r, Normal)
  | flight :: rest =>
      match callback r flight with
      | (r', Normal) => forEach rest r'
      | thrown => thrown
      end
  end.

(** [updateMapFlights] of [src/FlightMap.tsx]: the guard, the loop of
    evictions, which calls nothing that throws, then [forEach]. *)
Definition updateMapFlights (flights : list Flight) (r : Refs) : Refs * Completion :=
  match mapRef r with
  | None => (r, Normal)
  | Some _ =>
      let currentFlightIds : gset string := list_to_set (id <$> flights) in
      let existingFlightIds := keys (flightMarkersRef r) in
      forEach flights (fold_left (evict currentFlightIds) existingFlightIds r)
  end.

(** An array none of whose flights has a NaN coordinate. *)
Definition accepted (flights : list Flight) : Prop :=
  Forall (λ flight, refused (position flight) = false) flights.

End Checked.

(* ===================================================================== *)
(** ** Properties of the checked pass *)
(* ===================================================================== *)

Module Passes.
Import JS FlightMap Reconciler Tracks.

Local Open Scope nat_scope.
Local Open Scope list_scope.

Lemma callback_accepted r flight :
  Checked.refused (position flight) = false →
  Checked.callback r flight = (upsert r flight, Normal).
Proof.
  unfold position. intros H. unfold Checked.callback. rewrite H.
  destruct (flightMarkersRef r !! id flight) eqn:E; [done|].
  destruct (mapRef r) eqn:M; [done|]. unfold upsert. by rewrite E, M.
Qed.

Lemma callback_refused r flight :
  is_Some (mapRef r) → Checked.refused (position flight) = true →
  Checked.callback r flight = (r, Throw Checked.invalidLatLng).
Proof.
  unfold position. intros [m M] H. unfold Checked.callback. rewrite H, M.
  by destruct (flightMarkersRef r !! id flight).
Qed.

Lemma forEach_accepted l r :
  Checked.accepted l → Checked.forEach l r = (fold_left upsert l r, Normal).
Proof.
  revert r. induction l as [|a l IH]; intros r H; [done|].
  apply Forall_cons in H as [Ha Hl]. cbn [Checked.forEach fold_left].
  rewrite callback_accepted; [|done]. by apply IH.
Qed.

(** On an array without NaN coordinate the pass runs to its end, as
    [FlightMap.updateMapFlights] describes it. *)
Lemma update_accepted flights r :
  Checked.accepted flights →
  Checked.updateMapFlights flights r = (updateMapFlights flights r, Normal).
Proof.
  intros H. unfold Checked.updateMapFlights, updateMapFlights.
  destruct (mapRef r); [|done]. by apply forEach_accepted.
Qed.

(** The pass stops at the first flight with a NaN coordinate, the flights
    before it having been handled and none after it. *)
Lemma forEach_refused before flight after r :
  is_Some (mapRef r) → Checked.accepted before →
  Checked.refused (position flight) = true →
  Checked.forEach (before ++ flight :: after) r =
  (fold_left upsert before r, Throw Checked.invalidLatLng).
Proof.
  revert r. induction before as [|a l IH]; intros r Hm Hacc Href.
  - cbn [app Checked.forEach fold_left]. by rewrite callback_refused.
  - apply Forall_cons in Hacc as [Ha Hl].
    change ((a :: l) ++ flight :: after) with (a :: (l ++ flight :: after)).
    cbn [Checked.forEach fold_left]. rewrite callback_accepted; [|done].
    apply IH; [by apply upsert_mapRef|done|done].
Qed.

Lemma update_refused before flight after r :
  is_Some (mapRef r) → Checked.accepted before →
  Checked.refused (position flight) = true →
  Checked.updateMapFlights (before ++ flight :: after) r =
  (during before (before ++ flight :: after) r, Throw Checked.invalidLatLng).
Proof.
  intros Hm Hacc Href. unfold Checked.updateMapFlights.
  destruct Hm as [m Hm]. rewrite Hm. unfold during.
  apply forEach_refused; [|done|done].
  apply (during_nil_mapRef (before ++ flight :: after) r). by eexists.
Qed.

(** Whatever the array, the refs after the pass are those left by the
    callbacks of the flights of a prefix of it. *)
Lemma forEach_prefix l r :
  ∃ before, before `prefix_of` l ∧ fst (Checked.forEach l r) = fold_left upsert before r.
Proof.
  revert r. induction l as [|a l IH]; intros r; [by exists []|].
  cbn [Checked.forEach].
  destruct (Checked.refused (position a)) eqn:Ha.
  - unfold Checked.callback. fold (position a). rewrite Ha.
    destruct (flightMarkersRef r !! id a) eqn:E.
    + exists []. split; [apply prefix_nil|done].
    + destruct (mapRef r) eqn:M.
      * exists []. split; [apply prefix_nil|done].
      * destruct (IH r) as (before & Hp & Hb). exists (a :: before).
        split; [by apply prefix_cons|]. cbn [fold_left].
        replace (upsert r a) with r; [done|]. unfold upsert. by rewrite E, M.
  - rewrite callback_accepted; [|done].
    destruct (IH (upsert r a)) as (before & Hp & Hb). exists (a :: before).
    split; [by apply prefix_cons|done].
Qed.

Lemma update_prefix flights r :
  is_Some (mapRef r) →
  ∃ before, before `prefix_of` flights ∧
            fst (Checked.updateMapFlights flights r) = during before flights r.
Proof.
  intros [m Hm]. unfold Checked.updateMapFlights. rewrite Hm. apply forEach_prefix.
Qed.

Lemma accepted_comparable p : Checked.refused p = false → comparable p.
Proof.
  destruct p as [[|s|x] [|t|y]]; try done; intros _; unfold comparable, differs, strict_neq;
    simpl; rewrite ?Qeq_bool_refl, ?eqb_reflx; reflexivity.
Qed.

Lemma carrying_one_elem i l flight : carrying i l = [flight] → flight ∈ l.
Proof.
  intros H. assert (flight ∈ carrying i l) as Hin by (rewrite H; apply list_elem_of_here).
  by apply list_elem_of_filter in Hin as [_ Hin].
Qed.

Lemma accepted_elem l flight :
  Checked.accepted l → flight ∈ l → Checked.refused (position flight) = false.
Proof. intros H Hin. by apply (proj1 (Forall_forall _ _) H). Qed.

Lemma size_keys (l : list string) : size (list_to_set l : gset string) ≤ length l.
Proof.
  induction l as [|a l IH]; [by rewrite list_to_set_nil, size_empty|].
  rewrite list_to_set_cons. simpl.
  rewrite size_union_alt, size_singleton.
  pose proof (subseteq_size (list_to_set l ∖ {[a]}) (list_to_set l : gset string)) as H.
  etrans; [apply Nat.add_le_mono_l, H; set_solver|]. lia.
Qed.

(** *** Tracks *)

(** C2, as amended. In a pass of a mounted map view over an array none of
    whose flights has a NaN coordinate, for a flight tracked before the pass
    whose identifier is carried by exactly one flight of the array: the pass
    runs to its end; the track keeps its length or grows by one; the
    position of that flight is appended exactly when it differs (under
    [!==] on either coordinate) from the last point of the track; and a
    further such pass that carries the identifier once, with the same
    position, leaves the track as the first pass left it. *)
Theorem track_appends_only_new_positions
    (r : Refs) (flights : list Flight) (i : string) (d : FlightMarkerData)
    (flight : Flight) :
  reachable r → flightMarkersRef r !! i = Some d → carrying i flights = [flight] →
  Checked.accepted flights →
  ∃ r' d' p,
    Checked.updateMapFlights flights r = (r', Normal) ∧
    flightMarkersRef r' !! i = Some d' ∧
    last (track d) = Some p ∧
    (length (track d') = length (track d) ∨ length (track d') = S (length (track d))) ∧
    track d' = (if differs p (position flight)
                then track d ++ [position flight] else track d) ∧
    (track d' = track d ++ [position flight] ↔ differs p (position flight) = true) ∧
    (∀ flights2 flight2,
       carrying i flights2 = [flight2] → Checked.accepted flights2 →
       position flight2 = position flight →
       ∃ r'' d'', Checked.updateMapFlights flights2 r' = (r'', Normal) ∧
                  flightMarkersRef r'' !! i = Some d'' ∧
                  track d'' = track d').
Proof.
  intros Hr Hd Hone Hacc.
  destruct (track_of_a_flight_carried_once r flights i d flight Hr Hd Hone)
    as (d' & p & Hd' & Hlast & Hlen & Ht & Hiff & Hagain).
  exists (updateMapFlights flights r), d', p.
  split; [by apply update_accepted|]. repeat (split; [done|]).
  intros flights2 flight2 Hone2 Hacc2 Hpos.
  destruct (Hagain flights2 flight2 Hone2 Hpos) as (d'' & Hd'' & Ht'').
  { apply accepted_comparable, (accepted_elem flights); [done|].
    by apply (carrying_one_elem i). }
  exists (updateMapFlights flights2 (updateMapFlights flights r)), d''.
  split; [by apply update_accepted|done].
Qed.

(** *** Flights kept, first seen and seen again *)

(** X1. In a pass over an array none of whose flights has a NaN
    coordinate, a flight that the pass goes on tracking keeps its marker
    object and the popup bound to it when it was first seen; the marker is
    moved to the position of the last flight of the array that carries the
    identifier and its icon is turned to that flight's heading; an overlay
    it had is kept; the old track is a prefix of the new one. *)
Theorem kept_flight_is_moved_not_recreated
    (r : Refs) (flights : list Flight) (i : string) (d : FlightMarkerData)
    (flight : Flight) :
  reachable r → flightMarkersRef r !! i = Some d →
  last (carrying i flights) = Some flight → Checked.accepted flights →
  ∃ r' d', Checked.updateMapFlights flights r = (r', Normal) ∧
           flightMarkersRef r' !! i = Some d' ∧
           marker_id (marker d') = marker_id (marker d) ∧
           marker_popup (marker d') = marker_popup (marker d) ∧
           marker_latlng (marker d') = position flight ∧
           marker_icon (marker d') = createPlaneIcon (heading flight) ∧
           track d `prefix_of` track d' ∧
           (∀ p, polyline d = Some p →
                 ∃ p', polyline d' = Some p' ∧ polyline_id p' = polyline_id p).
Proof.
  intros Hr Hd Hlast Hacc.
  destruct (kept_flight r flights i d flight Hr Hd Hlast) as (d' & H).
  exists (updateMapFlights flights r), d'. split; [by apply update_accepted|done].
Qed.

(** X6. In a pass over an array none of whose flights has a NaN
    coordinate, a flight that is not tracked when the pass begins and that
    exactly one flight of the array carries gets a newly stamped marker at
    its position, on the map, a popup with the callsign, country, altitude,
    velocity and heading of that flight, a track of that single position
    and no overlay. *)
Theorem new_flight_gets_fresh_marker
    (r : Refs) (flights : list Flight) (i : string) (flight : Flight) :
  reachable r → flightMarkersRef r !! i = None → carrying i flights = [flight] →
  Checked.accepted flights →
  ∃ r' d', Checked.updateMapFlights flights r = (r', Normal) ∧
           flightMarkersRef r' !! i = Some d' ∧
           track d' = [position flight] ∧ polyline d' = None ∧
           lastId r < marker_id (marker d') ∧
           marker_id (marker d') ∈ shown r' ∧
           marker_latlng (marker d') = position flight ∧
           marker_popup (marker d') =
             {| popup_callsign := callsign flight; popup_country := country flight;
                popup_altitude := altitude flight; popup_velocity := velocity flight;
                popup_heading := heading flight |}.
Proof.
  intros Hr Hd Hone Hacc.
  destruct (first_sighting r flights i flight Hr Hd Hone) as (d' & H).
  exists (updateMapFlights flights r), d'. split; [by apply update_accepted|done].
Qed.

(** X7. A flight that leaves the array and comes back later, in passes
    over arrays none of whose flights has a NaN coordinate, is tracked anew:
    its earlier track and overlay are lost, and it gets a marker that is
    another object than the one it had. *)
Theorem returning_flight_starts_a_new_track
    (r : Refs) (absent back : list Flight) (i : string) (d : FlightMarkerData)
    (flight : Flight) :
  reachable r → flightMarkersRef r !! i = Some d →
  i ∉ id <$> absent → carrying i back = [flight] →
  Checked.accepted absent → Checked.accepted back →
  ∃ r' r'' d', Checked.updateMapFlights absent r = (r', Normal) ∧
               Checked.updateMapFlights back r' = (r'', Normal) ∧
               flightMarkersRef r' !! i = None ∧
               flightMarkersRef r'' !! i = Some d' ∧
               track d' = [position flight] ∧ polyline d' = None ∧
               marker_id (marker d') ≠ marker_id (marker d).
Proof.
  intros Hr Hd Hi Hone Hacc1 Hacc2.
  destruct (returning_flight r absent back i d flight Hr Hd Hi Hone) as (d' & H).
  exists (updateMapFlights absent r), (updateMapFlights back (updateMapFlights absent r)), d'.
  split; [by apply update_accepted|]. split; [by apply update_accepted|].
  split; [|done].
  pose proof (reachable_invariant _ Hr) as [Hm _ _ _ _].
  apply not_elem_of_dom. rewrite update_dom; [|done]. by rewrite elem_of_list_to_set.
Qed.

(** X9. After a pass of a mounted map view, aborted or not, there are at
    most as many tracked flights as the array has elements (the number the
    view prints as "aircraft shown").  When no flight of the array has a
    NaN coordinate the pass runs to its end and the identifiers tracked
    after it are exactly those of the array; there are then exactly as many
    tracked flights as elements if no two of them carry the same
    identifier. *)
Theorem tracked_count_is_bounded_by_array_length (r : Refs) (flights : list Flight) :
  reachable r →
  size (flightMarkersRef (fst (Checked.updateMapFlights flights r))) ≤ length flights ∧
  (Checked.accepted flights →
   snd (Checked.updateMapFlights flights r) = Normal ∧
   dom (flightMarkersRef (fst (Checked.updateMapFlights flights r)))
     = list_to_set (id <$> flights) ∧
   (NoDup (id <$> flights) →
    size (flightMarkersRef (fst (Checked.updateMapFlights flights r))) = length flights)).
Proof.
  intros Hr. pose proof (reachable_invariant _ Hr) as Hinv.
  assert (is_Some (mapRef r)) as Hm by (by destruct Hinv). split.
  - destruct (update_prefix flights r Hm) as (before & Hp & ->).
    rewrite <- size_dom. unfold during.
    rewrite upserted_dom; [|by apply (during_nil_mapRef flights r)].
    etrans; [|rewrite <- (length_fmap id flights); apply size_keys].
    apply subseteq_size. intros j Hj. apply elem_of_list_to_set.
    apply elem_of_union in Hj as [Hj|Hj].
    + apply elem_of_list_to_set in Hj. destruct Hp as [after ->].
      rewrite fmap_app. apply elem_of_app. by left.
    + change (j ∈ dom (flightMarkersRef (during [] flights r))) in Hj.
      apply elem_of_dom in Hj. rewrite during_nil_lookup in Hj.
      case_decide; [done|]. by destruct Hj.
  - intros Hacc. rewrite update_accepted; [|done]. cbn [fst snd].
    split; [done|]. split; [by apply update_dom|].
    intros Hnd. by apply (proj2 (tracked_count r flights Hr)).
Qed.

(** *** A flight without position *)

(** A state vector whose latitude the provider does not know. *)
Definition unlocated : Net.StateVector :=
  {| Net.state0 := Some "3c6444"; Net.state1 := Some "DLH400  ";
     Net.state2 := Some "Germany";
     Net.state5 := Some (Finite 77.7); Net.state6 := None;
     Net.state7 := Some (Finite 11000); Net.state8 := false;
     Net.state9 := Some (Finite 250); Net.state10 := Some (Finite 270) |}.

(** The [flights] prop of the map view after a fetch that received three
    airborne aircraft, the second of them without latitude. *)
Definition received : list Flight :=
  Fetcher.toMap <$>
    Fetcher.formattedFlights [Fetching.northbound; unlocated; Fetching.airborne].

(** C9, where the code departs from it.  The fetcher displays the missing
    latitude as "N/A" and the conversion for the map view reads it back as
    NaN.  In the pass of a freshly mounted map view over that array, the
    callback of the flight throws Leaflet's error: the flight before it is
    tracked, but neither that flight nor the one after it gets an entry, and
    the keys of the mapping are not the identifiers of the array. *)
Theorem flight_without_latitude_aborts_the_pass :
  id <$> received = ["800b12"; "3c6444"; "flight-2"] ∧
  latitude <$> (received !! 1) = Some NaN ∧
  snd (Checked.updateMapFlights received session0) = Throw Checked.invalidLatLng ∧
  is_Some (flightMarkersRef (fst (Checked.updateMapFlights received session0)) !! "800b12") ∧
  flightMarkersRef (fst (Checked.updateMapFlights received session0)) !! "3c6444" = None ∧
  flightMarkersRef (fst (Checked.updateMapFlights received session0)) !! "flight-2" = None ∧
  dom (flightMarkersRef (fst (Checked.updateMapFlights received session0)))
    ≠ list_to_set (id <$> received).
Proof.
  assert (id <$> received = ["800b12"; "3c6444"; "flight-2"]) as Hids
    by (vm_compute; reflexivity).
  assert (flightMarkersRef (fst (Checked.updateMapFlights received session0)) !! "3c6444"
          = None) as Hnone by (vm_compute; reflexivity).
  split; [done|]. split; [vm_compute; reflexivity|].
  split; [vm_compute; reflexivity|].
  split; [vm_compute; by eexists|]. split; [done|].
  split; [vm_compute; reflexivity|].
  intros H.
  assert ("3c6444" ∈ dom (flightMarkersRef
                            (fst (Checked.updateMapFlights received session0)))) as Hin.
  { rewrite H, Hids. set_solver. }
  apply elem_of_dom in Hin. rewrite Hnone in Hin. by destruct Hin.
Qed.

(** *** The theorems at work on the small session *)

Lemma b_then_a_accepted : Checked.accepted [plane "b" 14 78; plane "a" 13.5 77].
Proof. repeat constructor. Qed.

Lemma a_accepted : Checked.accepted [plane "a" 13.5 77].
Proof. repeat constructor. Qed.

Lemma a_then_b_accepted : Checked.accepted [plane "a" 13.5 77; plane "b" 14 78].
Proof. repeat constructor. Qed.

Lemma b_accepted : Checked.accepted [plane "b" 14 78].
Proof. repeat constructor. Qed.

Lemma a_back_accepted : Checked.accepted [plane "a" 15 77].
Proof. repeat constructor. Qed.

(** The aircraft [a] has moved north while [b] entered the area. *)
Lemma track_appends_only_new_positions_witness :
  reachable session1 ∧ flightMarkersRef session1 !! "a" = Some entry1 ∧
  carrying "a" [plane "b" 14 78; plane "a" 13.5 77] = [plane "a" 13.5 77] ∧
  Checked.accepted [plane "b" 14 78; plane "a" 13.5 77] ∧
  ∃ r' d' p,
    Checked.updateMapFlights [plane "b" 14 78; plane "a" 13.5 77] session1 = (r', Normal) ∧
    flightMarkersRef r' !! "a" = Some d' ∧
    last (track entry1) = Some p ∧
    (length (track d') = length (track entry1) ∨
     length (track d') = S (length (track entry1))) ∧
    track d' = (if differs p (position (plane "a" 13.5 77))
                then track entry1 ++ [position (plane "a" 13.5 77)] else track entry1).
Proof.
  split; [exact session1_reachable|]. split; [exact session1_entry|].
  split; [exact a_carried_once|]. split; [exact b_then_a_accepted|].
  destruct (track_appends_only_new_positions session1
              [plane "b" 14 78; plane "a" 13.5 77] "a" entry1 (plane "a" 13.5 77)
              session1_reachable session1_entry a_carried_once b_then_a_accepted)
    as (r' & d' & p & H0 & H1 & H2 & H3 & H4 & _).
  exists r', d', p. auto.
Defined.

Lemma kept_flight_is_moved_not_recreated_witness :
  reachable session1 ∧ flightMarkersRef session1 !! "a" = Some entry1 ∧
  last (carrying "a" [plane "a" 13.5 77]) = Some (plane "a" 13.5 77) ∧
  Checked.accepted [plane "a" 13.5 77] ∧
  ∃ r' d', Checked.updateMapFlights [plane "a" 13.5 77] session1 = (r', Normal) ∧
           flightMarkersRef r' !! "a" = Some d' ∧
           marker_id (marker d') = marker_id (marker entry1) ∧
           marker_popup (marker d') = marker_popup (marker entry1) ∧
           marker_latlng (marker d') = position (plane "a" 13.5 77).
Proof.
  split; [exact session1_reachable|]. split; [exact session1_entry|].
  split; [reflexivity|]. split; [exact a_accepted|].
  destruct (kept_flight_is_moved_not_recreated session1 [plane "a" 13.5 77] "a" entry1
              (plane "a" 13.5 77) session1_reachable session1_entry eq_refl a_accepted)
    as (r' & d' & H0 & H1 & H2 & H3 & H4 & _).
  exists r', d'. auto.
Defined.

Lemma new_flight_gets_fresh_marker_witness :
  reachable session1 ∧ flightMarkersRef session1 !! "b" = None ∧
  carrying "b" [plane "a" 13.5 77; plane "b" 14 78] = [plane "b" 14 78] ∧
  Checked.accepted [plane "a" 13.5 77; plane "b" 14 78] ∧
  ∃ r' d', Checked.updateMapFlights [plane "a" 13.5 77; plane "b" 14 78] session1
           = (r', Normal) ∧
           flightMarkersRef r' !! "b" = Some d' ∧
           track d' = [position (plane "b" 14 78)] ∧ polyline d' = None ∧
           lastId session1 < marker_id (marker d').
Proof.
  split; [exact session1_reachable|]. split; [exact session1_b|]. split; [reflexivity|].
  split; [exact a_then_b_accepted|].
  destruct (new_flight_gets_fresh_marker session1 [plane "a" 13.5 77; plane "b" 14 78] "b"
              (plane "b" 14 78) session1_reachable session1_b eq_refl a_then_b_accepted)
    as (r' & d' & H0 & H1 & H2 & H3 & H4 & _).
  exists r', d'. auto.
Defined.

Lemma returning_flight_starts_a_new_track_witness :
  reachable session2 ∧ flightMarkersRef session2 !! "a" = Some entry2 ∧
  ("a" ∉ id <$> [plane "b" 14 78]) ∧
  carrying "a" [plane "a" 15 77] = [plane "a" 15 77] ∧
  Checked.accepted [plane "b" 14 78] ∧ Checked.accepted [plane "a" 15 77] ∧
  ∃ r' r'' d', Checked.updateMapFlights [plane "b" 14 78] session2 = (r', Normal) ∧
               Checked.updateMapFlights [plane "a" 15 77] r' = (r'', Normal) ∧
               flightMarkersRef r' !! "a" = None ∧
               flightMarkersRef r'' !! "a" = Some d' ∧
               track d' = [position (plane "a" 15 77)] ∧ polyline d' = None ∧
               marker_id (marker d') ≠ marker_id (marker entry2).
Proof.
  split; [exact session2_reachable|]. split; [exact session2_entry|].
  split; [exact a_not_among_b|]. split; [reflexivity|].
  split; [exact b_accepted|]. split; [exact a_back_accepted|].
  exact (returning_flight_starts_a_new_track session2 [plane "b" 14 78] [plane "a" 15 77]
           "a" entry2 (plane "a" 15 77) session2_reachable session2_entry
           a_not_among_b eq_refl b_accepted a_back_accepted).
Defined.

Lemma tracked_count_is_bounded_by_array_length_witness :
  reachable session1 ∧ Checked.accepted [plane "a" 13.5 77; plane "b" 14 78] ∧
  NoDup (id <$> [plane "a" 13.5 77; plane "b" 14 78]) ∧
  size (flightMarkersRef
          (fst (Checked.updateMapFlights [plane "a" 13.5 77; plane "b" 14 78] session1)))
  = length [plane "a" 13.5 77; plane "b" 14 78].
Proof.
  split; [exact session1_reachable|]. split; [exact a_then_b_accepted|].
  split; [exact a_then_b_distinct|].
  exact (proj2 (proj2 (proj2 (tracked_count_is_bounded_by_array_length session1
                                [plane "a" 13.5 77; plane "b" 14 78] session1_reachable)
                         a_then_b_accepted)) a_then_b_distinct).
Defined.

End Passes.

(* ===================================================================== *)
(** ** Properties of the location resolver *)
(* ===================================================================== *)

Module Resolving.
Import JS Net Display Fetching GlobalFlightTracker.

Local Open Scope Z_scope.

(** *** What the resolver makes of a place *)













(** *** The two lookups *)


(** *** The theorem at work *)

Definition mumbai : Place :=
  {| Net.lat := "19.0760"; Net.lon := "72.8777";
     display_name := "Mumbai, Mumbai Suburban, Maharashtra, India" |}.

(** The geocoder knows no airport of that name, but it knows the city. *)
Definition cityOnly : Network :=
  {| nominatim := λ q,
       if String.eqb q "Mumbai" then Response true (inr [mumbai])
       else Response true (inr []);
     opensky := λ _, Response true (inr {| states := None |}) |}.

(** The geocoder answers the lookup of the airport with an error status. *)
Definition overloaded : Network :=
  {| nominatim := λ q,
       if String.eqb q "Mumbai" then Response true (inr [mumbai])
       else Response false (inr []);
     opensky := λ _, Response true (inr {| states := None |}) |}.

Example mumbai_is_found_by_the_bare_query :
  fst (searchAirport cityOnly "Mumbai") = [Geocode "Mumbai airport"; Geocode "Mumbai"] ∧
  ∃ l, snd (searchAirport cityOnly "Mumbai") = Some l ∧
       name l = "Mumbai" ∧ code l = "MUMBAI" ∧
       strict_eq (loc_lat l) (Finite 19.076) = true ∧
       strict_eq (loc_lon l) (Finite 72.8777) = true.
Proof. split; [reflexivity|]. eexists. repeat split; reflexivity. Qed.

Example kennedy_is_found_as_an_airport :
  fst (searchAirport newYork "JFK") = [Geocode "JFK airport"] ∧
  ∃ l, snd (searchAirport newYork "JFK") = Some l ∧
       name l = "John F. Kennedy International Airport" ∧
       strict_eq (loc_lat l) (Finite 40.6413) = true ∧
       strict_eq (loc_lon l) (Finite (-73.7781)) = true.
Proof. split; [reflexivity|]. eexists. repeat split; reflexivity. Qed.

Example error_status_is_followed_by_the_bare_query :
  fst (searchAirport overloaded "Mumbai") = [Geocode "Mumbai airport"; Geocode "Mumbai"] ∧
  name <$> snd (searchAirport overloaded "Mumbai") = Some "Mumbai".
Proof. split; reflexivity. Qed.


End Resolving.
